(** * Viewport rendering and image cache of the resource-pack editor

    A shallow embedding of [src/utils/viewport-renderer.ts] and
    [src/utils/image-cache.ts].

    Numbers.  A TypeScript [number] is modelled as an exact rational ([Q]):
    the arithmetic of the source ([+ - * /], [Math.max], [Math.min],
    [Math.floor], [Math.ceil], [Math.abs], comparisons) is the arithmetic of
    [Q], without rounding, [NaN] or infinities.  The only operation of the
    source that leaves the rationals is a division by zero, which happens in
    [calculateViewport] exactly when [zoom] is [0]; every statement below
    about [calculateViewport] is made at a non-zero zoom.  Equality of
    numbers is [Qeq] ([==]), equality of records is field-wise [Qeq].

    Maps.  The [Map<string, string>] of the cache is a [gmap string string]
    (no method of the cache observes the insertion order of the [Map]); the
    access-order array is a [list string].  A [string | undefined] in a
    condition is false when it is [undefined] or the empty string. *)

From Stdlib Require Import QArith Qabs Qminmax Qround Lqa Lia ZArith.
From stdpp Require Import gmap strings pretty list fin_maps.

Local Open Scope Q_scope.

(** ** Numbers *)

Module Num.

(** [a > b], [a >= b], [a <= b] of the source, as booleans. *)
Definition gt (a b : Q) : bool := negb (Qle_bool a b).
Definition ge (a b : Q) : bool := Qle_bool b a.
Definition le (a b : Q) : bool := Qle_bool a b.

(** [Math.floor] and [Math.ceil] return numbers again. *)
Definition floor (a : Q) : Q := inject_Z (Qfloor a).
Definition ceil (a : Q) : Q := inject_Z (Qceiling a).

End Num.

(** ** Data model *)

Record ViewportInfo := mkViewportInfo {
  x : Q;
  y : Q;
  width : Q;
  height : Q;
  scale : Q
}.

Record RenderRegion := mkRenderRegion {
  sourceX : Q;
  sourceY : Q;
  sourceWidth : Q;
  sourceHeight : Q;
  destX : Q;
  destY : Q;
  destWidth : Q;
  destHeight : Q
}.

(** Field-wise equality of numbers. *)
Definition ViewportInfo_eq (v w : ViewportInfo) : Prop :=
  x v == x w /\ y v == y w /\ width v == width w /\
  height v == height w /\ scale v == scale w.

(** ** Geometry: [calculateViewport] *)

Definition calculateViewport
    (containerWidth containerHeight imageWidth imageHeight
     zoom positionX positionY : Q) : ViewportInfo :=
  let scale := zoom / 100 in
  let displayWidth := imageWidth * scale in
  let displayHeight := imageHeight * scale in
  let imgLeft := (containerWidth - displayWidth) / 2 + positionX in
  let imgTop := (containerHeight - displayHeight) / 2 + positionY in
  let viewportX := Qmax 0 (- imgLeft / scale) in
  let viewportY := Qmax 0 (- imgTop / scale) in
  let viewportWidth := Qmin (imageWidth - viewportX) (containerWidth / scale) in
  let viewportHeight := Qmin (imageHeight - viewportY) (containerHeight / scale) in
  {| x := viewportX;
     y := viewportY;
     width := viewportWidth;
     height := viewportHeight;
     scale := scale |}.

(** ** Region expansion: [calculateRenderRegion] *)

(** The default value of the [bufferRatio] parameter. *)
Definition default_bufferRatio : Q := 2 # 10.

Definition calculateRenderRegion
    (viewport : ViewportInfo) (imageWidth imageHeight bufferRatio : Q)
    : RenderRegion :=
  let bufferX := width viewport * bufferRatio in
  let bufferY := height viewport * bufferRatio in
  let sourceX := Qmax 0 (Num.floor (x viewport - bufferX)) in
  let sourceY := Qmax 0 (Num.floor (y viewport - bufferY)) in
  let sourceWidth :=
    Qmin (imageWidth - sourceX) (Num.ceil (width viewport + bufferX * 2)) in
  let sourceHeight :=
    Qmin (imageHeight - sourceY) (Num.ceil (height viewport + bufferY * 2)) in
  {| sourceX := sourceX;
     sourceY := sourceY;
     sourceWidth := sourceWidth;
     sourceHeight := sourceHeight;
     destX := 0;
     destY := 0;
     destWidth := sourceWidth;
     destHeight := sourceHeight |}.

(** ** Culling: [isPointInViewport], [filterOpsInViewport] *)

Definition isPointInViewport (px py : Q) (viewport : ViewportInfo) (margin : Q)
    : bool :=
  Num.ge px (x viewport - margin) &&
  Num.le px (x viewport + width viewport + margin) &&
  Num.ge py (y viewport - margin) &&
  Num.le py (y viewport + height viewport + margin).

(** The bound [T extends { x: number; y: number }] of the source. *)
Class HasPoint (T : Type) := {
  op_x : T -> Q;
  op_y : T -> Q
}.

Definition filterOpsInViewport {T : Type} `{HasPoint T}
    (ops : list T) (viewport : ViewportInfo) (toolSize : Q) : list T :=
  let margin := toolSize * 2 in
  List.filter (fun op => isPointInViewport (op_x op) (op_y op) viewport margin) ops.

(** ** Redraw scheduler: [ViewportRenderer] *)

Module ViewportRenderer.

(** The three private fields of the class; [null] is [None]. *)
Record t := mk {
  lastViewport : option ViewportInfo;
  renderRegion : option RenderRegion;
  needsFullRedraw : bool
}.

(** The field initialisers, that is the state of [new ViewportRenderer()]. *)
Definition new : t :=
  {| lastViewport := None; renderRegion := None; needsFullRedraw := true |}.

(** The default value of the [threshold] parameter. *)
Definition default_threshold : Q := 1 # 10.

Definition shouldRedraw (this : t) (newViewport : ViewportInfo) (threshold : Q)
    : bool :=
  match lastViewport this with
  | None => true
  | Some last =>
      if needsFullRedraw this then true
      else
        let deltaX := Qabs (x newViewport - x last) in
        let deltaY := Qabs (y newViewport - y last) in
        let deltaWidth := Qabs (width newViewport - width last) in
        let deltaHeight := Qabs (height newViewport - height last) in
        let deltaScale := Qabs (scale newViewport - scale last) in
        Num.gt deltaX (width newViewport * threshold) ||
        Num.gt deltaY (height newViewport * threshold) ||
        Num.gt deltaWidth (width newViewport * threshold) ||
        Num.gt deltaHeight (height newViewport * threshold) ||
        Num.gt deltaScale (1 # 100)
  end.

Definition updateViewport (this : t) (viewport : ViewportInfo)
    (imageWidth imageHeight : Q) : t :=
  {| lastViewport := Some viewport;
     renderRegion :=
       Some (calculateRenderRegion viewport imageWidth imageHeight
               default_bufferRatio);
     needsFullRedraw := false |}.

Definition getRenderRegion (this : t) : option RenderRegion :=
  renderRegion this.

Definition markDirty (this : t) : t :=
  {| lastViewport := lastViewport this;
     renderRegion := renderRegion this;
     needsFullRedraw := true |}.

Definition reset (this : t) : t :=
  {| lastViewport := None; renderRegion := None; needsFullRedraw := true |}.

(** The state-changing methods, as commands of a caller. *)
Inductive command :=
| UpdateViewport (viewport : ViewportInfo) (imageWidth imageHeight : Q)
| MarkDirty
| Reset.

Definition exec (this : t) (c : command) : t :=
  match c with
  | UpdateViewport v w h => updateViewport this v w h
  | MarkDirty => markDirty this
  | Reset => reset this
  end.

Definition run (cs : list command) (this : t) : t := fold_left exec cs this.

Definition is_update (c : command) : bool :=
  match c with UpdateViewport _ _ _ => true | _ => false end.

End ViewportRenderer.

(** ** Diagnostics: [calculatePerformanceGain] *)

(** [parseFloat(a.toFixed(2))]: [toFixed] takes the sign off, leaves a
    number of magnitude [10^21] or more as it is, and otherwise picks the
    integer [n] with [n / 100] nearest to the magnitude, the larger one of
    two; [parseFloat] reads the decimal back. *)
Definition toFixed2 (a : Q) : Q :=
  let m := Qabs a in
  if Qle_bool (inject_Z (10 ^ 21)) m then a
  else
    let n := Qfloor (m * 100 + (1 # 2)) in
    if Qle_bool 0 a then inject_Z n / 100 else - (inject_Z n / 100).

Record PerformanceGain := mkPerformanceGain {
  pixelReduction : Q;
  percentageSaved : Q;
  estimatedSpeedup : Q
}.

Definition calculatePerformanceGain
    (fullWidth fullHeight viewportWidth viewportHeight : Q) : PerformanceGain :=
  let fullPixels := fullWidth * fullHeight in
  let viewportPixels := viewportWidth * viewportHeight in
  let pixelReduction := fullPixels - viewportPixels in
  let percentageSaved := (pixelReduction / fullPixels) * 100 in
  let estimatedSpeedup := fullPixels / viewportPixels in
  {| pixelReduction := pixelReduction;
     percentageSaved := toFixed2 percentageSaved;
     estimatedSpeedup := toFixed2 estimatedSpeedup |}.

(** ** Bounded cache: [ImageCacheManager] *)

Module ImageCacheManager.

Record t := mk {
  cache : gmap string string;
  maxSize : Z;
  accessOrder : list string
}.

(** The field initialisers, that is the state of [new ImageCacheManager()]. *)
Definition new : t :=
  {| cache := ∅; maxSize := 10000; accessOrder := [] |}.

(** The truth value JavaScript gives a [string | undefined] in a condition:
    [undefined] and the empty string are false. *)
Definition truthy (v : option string) : bool :=
  match v with
  | None => false
  | Some s => negb (String.eqb s "")
  end.

(** [Array.prototype.indexOf]: the first index holding [key], or [-1]. *)
Fixpoint indexOf_from (i : Z) (key : string) (l : list string) : Z :=
  match l with
  | [] => (-1)%Z
  | k :: rest =>
      if String.eqb k key then i else indexOf_from (i + 1)%Z key rest
  end.

Definition indexOf (key : string) (l : list string) : Z :=
  indexOf_from 0%Z key l.

(** [l.splice(index, 1)] for an index within the array. *)
Definition splice1 (index : Z) (l : list string) : list string :=
  take (Z.to_nat index) l ++ drop (S (Z.to_nat index)) l.

(** [l.shift()]: the removed head ([undefined] on an empty array) and the
    array left. *)
Definition shift (l : list string) : option string * list string :=
  match l with
  | [] => (None, [])
  | k :: rest => (Some k, rest)
  end.

Definition updateAccessOrder (key : string) (this : t) : t :=
  let index := indexOf key (accessOrder this) in
  let order :=
    if (index >? -1)%Z then splice1 index (accessOrder this)
    else accessOrder this in
  {| cache := cache this;
     maxSize := maxSize this;
     accessOrder := order ++ [key] |}.

Definition has (key : string) (this : t) : bool :=
  bool_decide (is_Some (cache this !! key)).

Definition getSize (this : t) : Z := Z.of_nat (size (cache this)).

Definition get (key : string) (this : t) : option string * t :=
  let value := cache this !! key in
  if truthy value then (value, updateAccessOrder key this)
  else (value, this).

Definition set (key value : string) (this : t) : t :=
  let this1 :=
    if (getSize this >=? maxSize this)%Z && negb (has key this) then
      let (oldestKey, order) := shift (accessOrder this) in
      {| cache :=
           match oldestKey with
           | Some k => if truthy oldestKey then delete k (cache this)
                       else cache this
           | None => cache this
           end;
         maxSize := maxSize this;
         accessOrder := order |}
    else this in
  updateAccessOrder key
    {| cache := <[key := value]> (cache this1);
       maxSize := maxSize this1;
       accessOrder := accessOrder this1 |}.

Definition clear (this : t) : t :=
  {| cache := ∅; maxSize := maxSize this; accessOrder := [] |}.

(** The public methods, as commands of a caller. *)
Inductive command :=
| DoGet (key : string)
| DoSet (key value : string)
| DoHas (key : string)
| DoClear.

Definition exec (this : t) (c : command) : t :=
  match c with
  | DoGet key => snd (get key this)
  | DoSet key value => set key value this
  | DoHas key => this
  | DoClear => clear this
  end.

Definition run (cs : list command) (this : t) : t := fold_left exec cs this.

End ImageCacheManager.

(** * Vocabulary of the specification *)

(** ** Rectangles *)

(** The source rectangle of a region, as a viewport-like quadruple. *)
Definition source_rect_is (r : RenderRegion) (sx sy sw sh : Q) : Prop :=
  sourceX r == sx /\ sourceY r == sy /\
  sourceWidth r == sw /\ sourceHeight r == sh.

(** The invariants a viewport has with respect to its image. *)
Definition valid_viewport (v : ViewportInfo) (imageW imageH : Q) : Prop :=
  0 <= x v /\ 0 <= y v /\ 0 <= width v /\ 0 <= height v /\
  x v + width v <= imageW /\ y v + height v <= imageH /\ 0 < scale v.

(** Rectangles as sets of points, half-open like [[0, imageW) x [0, imageH)]. *)
Definition in_viewport (v : ViewportInfo) (px py : Q) : Prop :=
  (x v <= px /\ px < x v + width v) /\ (y v <= py /\ py < y v + height v).

Definition in_image (imageW imageH px py : Q) : Prop :=
  (0 <= px /\ px < imageW) /\ (0 <= py /\ py < imageH).

Definition in_source (r : RenderRegion) (px py : Q) : Prop :=
  (sourceX r <= px /\ px < sourceX r + sourceWidth r) /\
  (sourceY r <= py /\ py < sourceY r + sourceHeight r).

(** The source rectangle is a superset of the viewport intersected with the
    image. *)
Definition covers_viewport (r : RenderRegion) (v : ViewportInfo)
    (imageW imageH : Q) : Prop :=
  forall px py,
    in_viewport v px py -> in_image imageW imageH px py -> in_source r px py.

Definition source_within_image (r : RenderRegion) (imageW imageH : Q) : Prop :=
  0 <= sourceX r /\ 0 <= sourceY r /\
  sourceX r + sourceWidth r <= imageW /\
  sourceY r + sourceHeight r <= imageH.

(** The closed box of the specification: the viewport grown by twice the
    margin base on every side. *)
Definition in_margin_box (v : ViewportInfo) (marginBase px py : Q) : Prop :=
  (x v - 2 * marginBase <= px /\ px <= x v + width v + 2 * marginBase) /\
  (y v - 2 * marginBase <= py /\ py <= y v + height v + 2 * marginBase).

(** The closed viewport itself. *)
Definition in_closed_viewport (v : ViewportInfo) (px py : Q) : Prop :=
  (x v <= px /\ px <= x v + width v) /\ (y v <= py /\ py <= y v + height v).

(** [kept_in_order P ops out]: [out] is [ops] with exactly the elements
    satisfying [P] kept, each as often as it occurs and in the order of
    [ops]. *)
Inductive kept_in_order {T : Type} (P : T -> Prop) : list T -> list T -> Prop :=
| kept_nil : kept_in_order P [] []
| kept_keep op ops out :
    P op -> kept_in_order P ops out -> kept_in_order P (op :: ops) (op :: out)
| kept_drop op ops out :
    ~ P op -> kept_in_order P ops out -> kept_in_order P (op :: ops) out.

(** Points as operations, for examples. *)
Definition point_ops : HasPoint (Q * Q) := {| op_x := fst; op_y := snd |}.

(** ** States of the redraw scheduler *)

Module ViewportRendererSpec.
Import ViewportRenderer.

(** The scheduler as the three states of the specification. *)
Inductive state := Uninitialized | Clean | Dirty.

Definition state_of (this : t) : state :=
  match lastViewport this, needsFullRedraw this with
  | None, _ => Uninitialized
  | Some _, true => Dirty
  | Some _, false => Clean
  end.

End ViewportRendererSpec.

(** ** Invariant and inputs of the cache *)

Module ImageCacheManagerSpec.
Import ImageCacheManager.

Local Open Scope Z_scope.

(** [l] without the first occurrence of [key]. *)
Fixpoint remove_first (key : string) (l : list string) : list string :=
  match l with
  | [] => []
  | k :: rest => if String.eqb k key then rest else k :: remove_first key rest
  end.

(** The access order lists exactly the live keys. *)
Definition live (order : list string) (m : gmap string string) : Prop :=
  forall k, k ∈ order <-> is_Some (m !! k).

(** Each live key exactly once. *)
Record wf (this : t) : Prop := mk_wf {
  wf_NoDup : NoDup (accessOrder this);
  wf_live : live (accessOrder this) (cache this)
}.

(** The invariant under which the cache is an LRU cache: well-formed, no
    empty key, within capacity. *)
Record inv (this : t) : Prop := mk_inv {
  inv_wf : wf this;
  inv_keys : "" ∉ accessOrder this;
  inv_size : getSize this <= maxSize this
}.

(** A command that stores under the empty key. *)
Definition stores_empty_key (c : command) : bool :=
  match c with
  | DoSet key _ => String.eqb key ""
  | _ => false
  end.

(** A run of [set]s, one per key-value pair. *)
Definition sets (kvs : list (string * string)) : list command :=
  map (fun kv => DoSet kv.1 kv.2) kvs.

(** The empty cache of a given capacity; [new] is [empty 10000]. *)
Definition empty (m : Z) : t :=
  {| cache := ∅; maxSize := m; accessOrder := [] |}.

(** The keys ["k1"], ["k2"], ... *)
Definition key (i : Z) : string := "k" +:+ pretty i.

(** The pair stored under the [i]-th key: the empty string at index
    [empty_at], the string ["data"] elsewhere. *)
Definition entry (empty_at i : Z) : string * string :=
  (key i, if i =? empty_at then "" else "data").

(** The cache of capacity [m] when the pair [(k1, v1)] and the pairs of
    [mid] have been stored, and after the pair [(kx, vx)] has been stored
    as well. *)
Definition full (m : Z) (k1 v1 : string) (mid : list (string * string)) : t :=
  run (sets ((k1, v1) :: mid)) (empty m).

Definition over (m : Z) (k1 v1 : string) (mid : list (string * string))
    (kx vx : string) : t :=
  run (sets ((k1, v1) :: mid ++ [(kx, vx)])) (empty m).

(** The three stages of the round trip: after [k1 .. k_(m+1)], then after
    [get k2], then after [set] of a further key. *)
Definition after_overflow (m : Z) (k1 v1 : string)
    (mid : list (string * string)) (kx vx : string) : t :=
  over m k1 v1 mid kx vx.

Definition after_get (m : Z) (k1 v1 : string) (mid : list (string * string))
    (kx vx k2 : string) : t :=
  snd (get k2 (after_overflow m k1 v1 mid kx vx)).

Definition after_second_overflow (m : Z) (k1 v1 : string)
    (mid : list (string * string)) (kx vx kb vb k2 : string) : t :=
  set kb vb (after_get m k1 v1 mid kx vx k2).

End ImageCacheManagerSpec.

(** ** Further vocabulary *)

(** A number that is an integer. *)
Definition is_integer (q : Q) : Prop := exists z : Z, q == inject_Z z.

(** The scheduler of the specification, as an automaton on its three
    states: what each command does to the state. *)
Module ViewportRendererAutomaton.
Import ViewportRenderer ViewportRendererSpec.

Definition next (s : state) (c : command) : state :=
  match c with
  | UpdateViewport _ _ _ => Clean
  | Reset => Uninitialized
  | MarkDirty =>
      match s with
      | Uninitialized => Uninitialized
      | Clean | Dirty => Dirty
      end
  end.

Definition run_states (cs : list command) (s : state) : state :=
  fold_left next cs s.


End ViewportRendererAutomaton.

(** * Facts about numbers *)

Module NumFacts.

Lemma gt_true a b : Num.gt a b = true <-> b < a.
Proof.
  unfold Num.gt. rewrite negb_true_iff, <- not_true_iff_false, Qle_bool_iff.
  split; [apply Qnot_le_lt | apply Qlt_not_le].
Qed.

Lemma gt_false a b : Num.gt a b = false <-> a <= b.
Proof. unfold Num.gt. rewrite negb_false_iff. apply Qle_bool_iff. Qed.

Lemma ge_true a b : Num.ge a b = true <-> b <= a.
Proof. apply Qle_bool_iff. Qed.

Lemma le_true a b : Num.le a b = true <-> a <= b.
Proof. apply Qle_bool_iff. Qed.

Lemma floor_le a : Num.floor a <= a.
Proof. apply Qfloor_le. Qed.

Lemma floor_gt a : a - 1 < Num.floor a.
Proof.
  unfold Num.floor. pose proof (Qlt_floor a) as H.
  rewrite inject_Z_plus in H. change (inject_Z 1) with 1 in H. lra.
Qed.

Lemma ceil_ge a : a <= Num.ceil a.
Proof. apply Qle_ceiling. Qed.

Lemma ceil_lt a : Num.ceil a < a + 1.
Proof.
  unfold Num.ceil. pose proof (Qceiling_lt a) as H.
  unfold Z.sub in H. rewrite inject_Z_plus, inject_Z_opp in H.
  change (inject_Z 1) with 1 in H. lra.
Qed.

(** Case analysis on [Math.max] and [Math.min], ready for [lra]. *)
Lemma max_cases a b : (a < b /\ Qmax a b == b) \/ (b <= a /\ Qmax a b == a).
Proof. apply Q.max_spec. Qed.

Lemma min_cases a b : (a < b /\ Qmin a b == a) \/ (b <= a /\ Qmin a b == b).
Proof. apply Q.min_spec. Qed.

End NumFacts.

(** Replace every [Math.max] and [Math.min] by a fresh number together
    with the case that defines it, so that [lra] can finish. *)
Ltac abstract_max a b :=
  let m := fresh "m" in
  let H := fresh "Hm" in
  pose proof (NumFacts.max_cases a b) as H;
  set (m := Qmax a b) in *; clearbody m;
  destruct H as [[? ?] | [? ?]].

Ltac abstract_min a b :=
  let m := fresh "m" in
  let H := fresh "Hm" in
  pose proof (NumFacts.min_cases a b) as H;
  set (m := Qmin a b) in *; clearbody m;
  destruct H as [[? ?] | [? ?]].

(** [lra] does not read [_ / 2]; turn it into a product by a constant. *)
Ltac halves := unfold Qdiv in *; change (/ 2) with (1 # 2) in *.

Ltac split_minmax :=
  repeat match goal with
  | |- context [Qmax ?a ?b] => abstract_max a b
  | |- context [Qmin ?a ?b] => abstract_min a b
  | _ : context [Qmax ?a ?b] |- _ => abstract_max a b
  | _ : context [Qmin ?a ?b] |- _ => abstract_min a b
  end.

(** * Geometry calculator *)

Section Geometry.

Variables containerW containerH imageW imageH zoom panX panY : Q.

Local Abbreviation v :=
  (calculateViewport containerW containerH imageW imageH zoom panX panY)
  (only parsing).

(** The origin is clamped by [Math.max], the extent by [Math.min]: whatever
    the sizes and the pan offset are, at any zoom the source can divide by. *)
Lemma calculateViewport_clamped :
  ~ zoom == 0 ->
  0 <= x v /\ 0 <= y v /\ x v + width v <= imageW /\ y v + height v <= imageH.
Proof. intros _. unfold calculateViewport. simpl. split_minmax; lra. Qed.

Lemma calculateViewport_scale : scale v == zoom / 100.
Proof. reflexivity. Qed.

Lemma calculateViewport_width_le_container :
  ~ zoom == 0 ->
  width v <= containerW / (zoom / 100) /\
  height v <= containerH / (zoom / 100).
Proof. intros _. unfold calculateViewport. simpl. split_minmax; lra. Qed.

Lemma calculateViewport_width_le_image :
  ~ zoom == 0 ->
  width v <= imageW /\ height v <= imageH.
Proof. intros _. unfold calculateViewport. simpl. split_minmax; lra. Qed.

End Geometry.

(** Division by a positive scale, the step [lra] cannot do. *)
Lemma div_le_iff (a b s : Q) : 0 < s -> (a / s <= b <-> a <= b * s).
Proof.
  intros Hs. split; intros H.
  - assert (E : a == a / s * s) by (field; lra). rewrite E.
    apply Qmult_le_compat_r; lra.
  - apply Qle_shift_div_r; assumption.
Qed.

Lemma div_pos (a s : Q) : 0 < s -> 0 < a -> 0 < a / s.
Proof. intros Hs Ha. apply Qlt_shift_div_l; lra. Qed.

Lemma div_nonpos (a s : Q) : 0 < s -> a <= 0 -> a / s <= 0.
Proof. intros Hs Ha. apply Qle_shift_div_r; lra. Qed.

(** C1. For positive container and image dimensions, a positive zoom and any
    pan offset, the viewport of [calculateViewport] has a non-negative origin
    and ends within the image: [x >= 0], [y >= 0], [x + width <= imageW] and
    [y + height <= imageH]. *)
Theorem calculateViewport_within_image
    (containerW containerH imageW imageH zoom panX panY : Q) :
  0 < containerW -> 0 < containerH -> 0 < imageW -> 0 < imageH -> 0 < zoom ->
  let v := calculateViewport containerW containerH imageW imageH zoom panX panY in
  0 <= x v /\ 0 <= y v /\ x v + width v <= imageW /\ y v + height v <= imageH.
Proof.
  intros _ _ _ _ Hz. apply calculateViewport_clamped.
  intros E. rewrite E in Hz. discriminate Hz.
Qed.

Lemma calculateViewport_within_image_witness :
  let v := calculateViewport 800 600 4096 4096 250 (-37) 12 in
  0 <= x v /\ 0 <= y v /\ x v + width v <= 4096 /\ y v + height v <= 4096.
Proof. apply calculateViewport_within_image; reflexivity. Defined.

(** The extent of the viewport is the smaller of what is left of the image
    after the origin and the container at scale; it is non-negative exactly
    when the origin has not left the image. *)
Lemma calculateViewport_width_nonneg_iff
    (containerW containerH imageW imageH zoom panX panY : Q) :
  0 < containerW -> 0 < containerH -> 0 < zoom ->
  let v := calculateViewport containerW containerH imageW imageH zoom panX panY in
  (0 <= width v <-> x v <= imageW) /\ (0 <= height v <-> y v <= imageH).
Proof.
  intros HcW HcH Hz. unfold calculateViewport. simpl.
  assert (Hs : 0 < zoom / 100) by (apply div_pos; lra).
  pose proof (div_pos containerW _ Hs HcW).
  pose proof (div_pos containerH _ Hs HcH).
  split; split; intros Hw; split_minmax; lra.
Qed.

(** The origin is within the image exactly when the pan offset has not
    pushed the image past the container's left (top) edge. *)
Lemma calculateViewport_x_le_image_iff
    (containerW containerH imageW imageH zoom panX panY : Q) :
  0 < imageW -> 0 < imageH -> 0 < zoom ->
  let v := calculateViewport containerW containerH imageW imageH zoom panX panY in
  (x v <= imageW <-> - ((containerW + imageW * scale v) / 2) <= panX) /\
  (y v <= imageH <-> - ((containerH + imageH * scale v) / 2) <= panY).
Proof.
  intros HiW HiH Hz. unfold calculateViewport. simpl.
  assert (Hs : 0 < zoom / 100) by (apply div_pos; lra).
  set (s := zoom / 100) in *. clearbody s.
  pose proof (div_le_iff (- ((containerW - imageW * s) / 2 + panX)) imageW s Hs)
    as [HX1 HX2].
  pose proof (div_le_iff (- ((containerH - imageH * s) / 2 + panY)) imageH s Hs)
    as [HY1 HY2].
  split; split; intros H.
  - assert (Hq : - ((containerW - imageW * s) / 2 + panX) / s <= imageW)
      by (revert H; split_minmax; lra).
    apply HX1 in Hq. halves. lra.
  - assert (Hq : - ((containerW - imageW * s) / 2 + panX) / s <= imageW)
      by (apply HX2; halves; lra).
    split_minmax; lra.
  - assert (Hq : - ((containerH - imageH * s) / 2 + panY) / s <= imageH)
      by (revert H; split_minmax; lra).
    apply HY1 in Hq. halves. lra.
  - assert (Hq : - ((containerH - imageH * s) / 2 + panY) / s <= imageH)
      by (apply HY2; halves; lra).
    split_minmax; lra.
Qed.

(** C3, as amended. For positive container and image dimensions, a positive
    zoom and any pan offset, [scale > 0]; [width >= 0] holds exactly when
    [panX >= -(containerW + imageW * scale) / 2] and [height >= 0] exactly
    when [panY >= -(containerH + imageH * scale) / 2], that is as long as the
    image has not been panned wholly past the container's left (top) edge. *)
Theorem calculateViewport_extent_sign
    (containerW containerH imageW imageH zoom panX panY : Q) :
  0 < containerW -> 0 < containerH -> 0 < imageW -> 0 < imageH -> 0 < zoom ->
  let v := calculateViewport containerW containerH imageW imageH zoom panX panY in
  0 < scale v /\
  (0 <= width v <-> - ((containerW + imageW * scale v) / 2) <= panX) /\
  (0 <= height v <-> - ((containerH + imageH * scale v) / 2) <= panY).
Proof.
  intros HcW HcH HiW HiH Hz v.
  destruct (calculateViewport_width_nonneg_iff
              containerW containerH imageW imageH zoom panX panY HcW HcH Hz)
    as [Hw Hh].
  destruct (calculateViewport_x_le_image_iff
              containerW containerH imageW imageH zoom panX panY HiW HiH Hz)
    as [Hx Hy].
  fold v in Hw, Hh, Hx, Hy.
  split; [| split].
  - subst v. simpl. apply div_pos; lra.
  - rewrite Hw. exact Hx.
  - rewrite Hh. exact Hy.
Qed.

Lemma calculateViewport_extent_sign_witness :
  let v := calculateViewport 800 600 4096 4096 100 (-2000) 300 in
  0 < scale v /\
  (0 <= width v <-> - ((800 + 4096 * scale v) / 2) <= -2000) /\
  (0 <= height v <-> - ((600 + 4096 * scale v) / 2) <= 300).
Proof. apply calculateViewport_extent_sign; reflexivity. Defined.

(** C3 as stated fails: with the image panned far to the left, the origin
    lies beyond the image and the width is negative. *)
Lemma calculateViewport_negative_width :
  (0 < 800 /\ 0 < 600 /\ 0 < 4096 /\ 0 < 4096 /\ 0 < 100) /\
  let v := calculateViewport 800 600 4096 4096 100 (-10000) 0 in
  width v == -7552 /\
  ~ (0 <= width v /\ 0 <= height v /\ 0 < scale v).
Proof.
  split; [repeat split |].
  assert (E : width (calculateViewport 800 600 4096 4096 100 (-10000) 0) == -7552)
    by (vm_compute; reflexivity).
  simpl. split; [exact E |]. intros [Hw _].
  rewrite E in Hw. revert Hw. apply Qlt_not_le. reflexivity.
Qed.

(** Closed comparisons of numbers, by evaluation. *)
Ltac qle_compute := apply Qle_bool_iff; vm_compute; reflexivity.
Ltac qeq_compute := apply Qeq_bool_iff; vm_compute; reflexivity.

(** C10, as amended. [calculateViewport] is a total function, nothing is
    raised; for a positive zoom, a zero or negative container or image width
    gives [width <= 0] and a zero or negative container or image height gives
    [height <= 0]; the extent is exactly [0] when the container dimension is
    [0] and the origin has not left the image. *)
Theorem calculateViewport_degenerate
    (containerW containerH imageW imageH zoom panX panY : Q) :
  0 < zoom ->
  let v := calculateViewport containerW containerH imageW imageH zoom panX panY in
  (containerW <= 0 \/ imageW <= 0 -> width v <= 0) /\
  (containerH <= 0 \/ imageH <= 0 -> height v <= 0) /\
  (containerW == 0 -> x v <= imageW -> width v == 0) /\
  (containerH == 0 -> y v <= imageH -> height v == 0).
Proof.
  intros Hz. unfold calculateViewport. simpl.
  assert (Hs : 0 < zoom / 100) by (apply div_pos; lra).
  set (s := zoom / 100) in *. clearbody s.
  repeat split.
  - intros [Hc | Hi].
    + pose proof (div_nonpos containerW s Hs Hc). split_minmax; lra.
    + split_minmax; lra.
  - intros [Hc | Hi].
    + pose proof (div_nonpos containerH s Hs Hc). split_minmax; lra.
    + split_minmax; lra.
  - intros Hc Hx. rewrite Hc in *.
    assert (E : 0 / s == 0) by (unfold Qdiv; lra). rewrite E.
    split_minmax; lra.
  - intros Hc Hy. rewrite Hc in *.
    assert (E : 0 / s == 0) by (unfold Qdiv; lra). rewrite E.
    split_minmax; lra.
Qed.

Lemma calculateViewport_degenerate_witness :
  let v := calculateViewport 0 0 4096 4096 100 0 0 in
  width v <= 0 /\ height v <= 0 /\ width v == 0 /\ height v == 0.
Proof.
  destruct (calculateViewport_degenerate 0 0 4096 4096 100 0 0)
    as (Hw & Hh & Hw0 & Hh0); [reflexivity |].
  simpl. split; [| split; [| split]].
  - apply Hw. left. apply Qle_refl.
  - apply Hh. left. apply Qle_refl.
  - apply Hw0; [reflexivity | qle_compute].
  - apply Hh0; [reflexivity | qle_compute].
Defined.

(** C10 as stated fails: a negative zoom gives a viewport of negative, not
    zero, extent, and so does a negative container at a positive zoom. *)
Lemma calculateViewport_negative_zoom :
  let v := calculateViewport 800 600 4096 4096 (-100) 0 0 in
  let w := calculateViewport (-800) (-600) 4096 4096 100 0 0 in
  (width v == -800 /\ height v == -600) /\
  (width w == -800 /\ height w == -600) /\
  ~ (width v == 0 /\ height v == 0) /\
  ~ (width w == 0 /\ height w == 0).
Proof.
  simpl.
  assert (Ev : width (calculateViewport 800 600 4096 4096 (-100) 0 0) == -800)
    by qeq_compute.
  assert (Ew : width (calculateViewport (-800) (-600) 4096 4096 100 0 0) == -800)
    by qeq_compute.
  repeat split; try qeq_compute.
  - intros [H _]. rewrite Ev in H. discriminate H.
  - intros [H _]. rewrite Ew in H. discriminate H.
Qed.

(** * Region expander *)

(** C9, as amended. [calculateViewport(800, 600, 4096, 4096, 100, 0, 0)]
    returns [{x: 1648, y: 1748, width: 800, height: 600, scale: 1}] (the
    centred window of an image larger than the container does not start at
    the image's origin); [calculateRenderRegion] with the default ratio
    returns the source rectangle [{1488, 1628, 1120, 840}] on that viewport,
    and [{0, 0, 1120, 840}] on the viewport
    [{x: 0, y: 0, width: 800, height: 600, scale: 1}]: the buffer is added on
    both sides, [800 + 2 * 160] and [600 + 2 * 120]. *)
Theorem scenario_800_600_4096 :
  let v := calculateViewport 800 600 4096 4096 100 0 0 in
  let v0 := {| x := 0; y := 0; width := 800; height := 600; scale := 1 |} in
  ViewportInfo_eq v
    {| x := 1648; y := 1748; width := 800; height := 600; scale := 1 |} /\
  source_rect_is (calculateRenderRegion v 4096 4096 default_bufferRatio)
    1488 1628 1120 840 /\
  source_rect_is (calculateRenderRegion v0 4096 4096 default_bufferRatio)
    0 0 1120 840.
Proof.
  unfold ViewportInfo_eq, source_rect_is. repeat split; qeq_compute.
Qed.

(** C9 as stated fails, in both halves: the viewport does not start at
    [(0, 0)], and the source rectangle of the viewport
    [{0, 0, 800, 600, 1}] is not [{0, 0, 960, 720}]. *)
Lemma scenario_as_stated_fails :
  let v := calculateViewport 800 600 4096 4096 100 0 0 in
  let v0 := {| x := 0; y := 0; width := 800; height := 600; scale := 1 |} in
  ~ ViewportInfo_eq v v0 /\
  ~ source_rect_is (calculateRenderRegion v0 4096 4096 default_bufferRatio)
      0 0 960 720 /\
  ~ source_rect_is (calculateRenderRegion v 4096 4096 default_bufferRatio)
      0 0 960 720.
Proof.
  simpl. split; [| split].
  - intros (Hx & _). apply Qeq_bool_iff in Hx. vm_compute in Hx. discriminate Hx.
  - intros (_ & _ & Hw & _). apply Qeq_bool_iff in Hw. vm_compute in Hw.
    discriminate Hw.
  - intros (Hx & _). apply Qeq_bool_iff in Hx. vm_compute in Hx. discriminate Hx.
Qed.

Ltac floor_ceil_facts :=
  repeat match goal with
  | |- context [Num.floor ?a] =>
      let f := fresh "f" in
      pose proof (NumFacts.floor_le a); pose proof (NumFacts.floor_gt a);
      set (f := Num.floor a) in *; clearbody f
  | |- context [Num.ceil ?a] =>
      let c := fresh "c" in
      pose proof (NumFacts.ceil_ge a); pose proof (NumFacts.ceil_lt a);
      set (c := Num.ceil a) in *; clearbody c
  end.

(** The source rectangle is clamped into the image for every viewport and
    every buffer ratio. *)
Lemma calculateRenderRegion_within_image (v : ViewportInfo) (imageW imageH ratio : Q) :
  source_within_image (calculateRenderRegion v imageW imageH ratio) imageW imageH.
Proof.
  unfold source_within_image, calculateRenderRegion. simpl.
  split_minmax; lra.
Qed.

(** The destination rectangle is the source extent at the origin. *)
Lemma calculateRenderRegion_dest (v : ViewportInfo) (imageW imageH ratio : Q) :
  let r := calculateRenderRegion v imageW imageH ratio in
  destX r == 0 /\ destY r == 0 /\
  destWidth r == sourceWidth r /\ destHeight r == sourceHeight r.
Proof. simpl. repeat split; reflexivity. Qed.

(** With a buffer of at least one pixel on an axis, flooring the origin and
    rounding the span up separately still reaches the end of the viewport. *)
Lemma calculateRenderRegion_covers_ratio (v : ViewportInfo) (imageW imageH ratio : Q) :
  valid_viewport v imageW imageH ->
  1 <= width v * ratio -> 1 <= height v * ratio ->
  covers_viewport (calculateRenderRegion v imageW imageH ratio) v imageW imageH.
Proof.
  intros (Hx & Hy & Hw & Hh & HxW & HyH & Hs) Hbx Hby px py
         [[Hpx1 Hpx2] [Hpy1 Hpy2]] [[Hix1 Hix2] [Hiy1 Hiy2]].
  unfold in_source, calculateRenderRegion. simpl.
  set (bx := width v * ratio) in *. set (by_ := height v * ratio) in *.
  clearbody bx by_.
  floor_ceil_facts. split; split; split_minmax; lra.
Qed.

(** C2, as amended. For every valid viewport whose buffer at the default
    ratio is at least one pixel on each axis ([width * 0.2 >= 1] and
    [height * 0.2 >= 1], that is width and height at least 5), the source
    rectangle of [calculateRenderRegion] is a superset of the viewport
    intersected with [[0, imageW) x [0, imageH)]; and it lies within the
    image: [sourceX >= 0], [sourceY >= 0], [sourceX + sourceWidth <= imageW],
    [sourceY + sourceHeight <= imageH]. *)
Theorem calculateRenderRegion_covers (v : ViewportInfo) (imageW imageH : Q) :
  valid_viewport v imageW imageH ->
  1 <= width v * default_bufferRatio ->
  1 <= height v * default_bufferRatio ->
  let r := calculateRenderRegion v imageW imageH default_bufferRatio in
  covers_viewport r v imageW imageH /\ source_within_image r imageW imageH.
Proof.
  intros Hv Hbx Hby. split.
  - apply calculateRenderRegion_covers_ratio; assumption.
  - apply calculateRenderRegion_within_image.
Qed.

Lemma calculateRenderRegion_covers_witness :
  let v := {| x := 1648; y := 1748; width := 800; height := 600; scale := 1 |} in
  let r := calculateRenderRegion v 4096 4096 default_bufferRatio in
  covers_viewport r v 4096 4096 /\ source_within_image r 4096 4096.
Proof.
  apply calculateRenderRegion_covers.
  - unfold valid_viewport. simpl. repeat split; qle_compute.
  - qle_compute.
  - qle_compute.
Defined.

(** C2 as stated fails: a valid viewport one pixel wide starting at
    [x = 1.125] in a 16 x 16 image gets the source columns [[0, 2)], which
    miss the point [(2.0625, 0.5)] of the viewport. *)
Lemma calculateRenderRegion_under_renders :
  let v := {| x := 9 # 8; y := 0; width := 1; height := 1; scale := 800 |} in
  let r := calculateRenderRegion v 16 16 default_bufferRatio in
  valid_viewport v 16 16 /\
  source_rect_is r 0 0 2 2 /\
  in_viewport v (33 # 16) (1 # 2) /\ in_image 16 16 (33 # 16) (1 # 2) /\
  ~ in_source r (33 # 16) (1 # 2) /\
  ~ covers_viewport r v 16 16.
Proof.
  set (v := {| x := 9 # 8; y := 0; width := 1; height := 1; scale := 800 |}).
  set (r := calculateRenderRegion v 16 16 default_bufferRatio).
  simpl.
  assert (Hin : in_viewport v (33 # 16) (1 # 2)).
  { unfold in_viewport. simpl. repeat split; try qle_compute; reflexivity. }
  assert (Him : in_image 16 16 (33 # 16) (1 # 2)).
  { unfold in_image. repeat split; try qle_compute; reflexivity. }
  assert (Hout : ~ in_source r (33 # 16) (1 # 2)).
  { intros [[_ H] _]. revert H. apply Qle_not_lt. qle_compute. }
  split; [| split; [| split; [| split; [| split]]]].
  - unfold valid_viewport. simpl. repeat split; qle_compute.
  - unfold source_rect_is. repeat split; qeq_compute.
  - exact Hin.
  - exact Him.
  - exact Hout.
  - intros Hc. exact (Hout (Hc _ _ Hin Him)).
Qed.

(** * Operation culler *)

Lemma isPointInViewport_iff (px py : Q) (v : ViewportInfo) (margin : Q) :
  isPointInViewport px py v margin = true <->
  (x v - margin <= px /\ px <= x v + width v + margin) /\
  (y v - margin <= py /\ py <= y v + height v + margin).
Proof.
  unfold isPointInViewport.
  rewrite !andb_true_iff, !NumFacts.ge_true, !NumFacts.le_true. tauto.
Qed.

Lemma isPointInViewport_margin_box (px py : Q) (v : ViewportInfo) (marginBase : Q) :
  isPointInViewport px py v (marginBase * 2) = true <->
  in_margin_box v marginBase px py.
Proof.
  rewrite isPointInViewport_iff. unfold in_margin_box.
  split; intros [[? ?] [? ?]]; repeat split; lra.
Qed.

Lemma in_margin_box_0 (v : ViewportInfo) (px py : Q) :
  in_margin_box v 0 px py <-> in_closed_viewport v px py.
Proof.
  unfold in_margin_box, in_closed_viewport.
  split; intros [[? ?] [? ?]]; repeat split; lra.
Qed.

(** What is kept is determined by the input. *)
Lemma kept_in_order_unique {T : Type} (P : T -> Prop) (ops out1 out2 : list T) :
  kept_in_order P ops out1 -> kept_in_order P ops out2 -> out1 = out2.
Proof.
  intros H1. revert out2.
  induction H1 as [| op ops out HP _ IH | op ops out HP _ IH];
    intros out2 H2; inversion H2; subst; try contradiction; auto.
  f_equal. auto.
Qed.

Lemma kept_in_order_In {T : Type} (P : T -> Prop) (ops out : list T) :
  kept_in_order P ops out -> forall op, In op out <-> In op ops /\ P op.
Proof.
  induction 1 as [| o ops out HP _ IH | o ops out HP _ IH]; intros op; simpl.
  - tauto.
  - rewrite IH. split.
    + intros [<- | [? ?]]; auto.
    + intros [[<- | ?] ?]; auto.
  - rewrite IH. split.
    + intros [? ?]; auto.
    + intros [[<- | ?] ?]; [contradiction | auto].
Qed.

Lemma kept_in_order_sublist {T : Type} (P : T -> Prop) (ops out : list T) :
  kept_in_order P ops out -> sublist out ops.
Proof.
  induction 1; [constructor | by constructor | by constructor].
Qed.

Lemma kept_in_order_iff {T : Type} (P Q : T -> Prop) (ops out : list T) :
  (forall op, P op <-> Q op) ->
  kept_in_order P ops out -> kept_in_order Q ops out.
Proof.
  intros HPQ. induction 1; [constructor | |].
  - apply kept_keep; [by apply HPQ | assumption].
  - apply kept_drop; [by rewrite <- HPQ | assumption].
Qed.

Lemma filterOpsInViewport_kept {T : Type} `{HasPoint T}
    (ops : list T) (v : ViewportInfo) (marginBase : Q) :
  kept_in_order (fun op => in_margin_box v marginBase (op_x op) (op_y op))
    ops (filterOpsInViewport ops v marginBase).
Proof.
  unfold filterOpsInViewport. induction ops as [| op ops IH]; simpl.
  - constructor.
  - destruct (isPointInViewport (op_x op) (op_y op) v (marginBase * 2)) eqn:E.
    + apply kept_keep; [by apply isPointInViewport_margin_box | exact IH].
    + apply kept_drop; [| exact IH].
      rewrite <- isPointInViewport_margin_box, E. discriminate.
Qed.

(** C8. [filterOpsInViewport ops viewport marginBase] keeps exactly the
    operations whose point lies in
    [[x - 2*marginBase, x + width + 2*marginBase] x
     [y - 2*marginBase, y + height + 2*marginBase]], in their original order;
    an empty input gives an empty output; and with [marginBase = 0] the test
    is membership in the closed viewport. *)
Theorem filterOpsInViewport_exact {T : Type} `{HasPoint T}
    (ops : list T) (v : ViewportInfo) (marginBase : Q) :
  kept_in_order (fun op => in_margin_box v marginBase (op_x op) (op_y op))
    ops (filterOpsInViewport ops v marginBase) /\
  filterOpsInViewport (@nil T) v marginBase = [] /\
  kept_in_order (fun op => in_closed_viewport v (op_x op) (op_y op))
    ops (filterOpsInViewport ops v 0).
Proof.
  split; [apply filterOpsInViewport_kept | split; [reflexivity |]].
  eapply kept_in_order_iff; [| apply filterOpsInViewport_kept].
  intros op. apply in_margin_box_0.
Qed.

(** Membership form of the same fact. *)
Corollary filterOpsInViewport_In {T : Type} `{HasPoint T}
    (ops : list T) (v : ViewportInfo) (marginBase : Q) (op : T) :
  In op (filterOpsInViewport ops v marginBase) <->
  In op ops /\ in_margin_box v marginBase (op_x op) (op_y op).
Proof.
  apply (kept_in_order_In _ _ _ (filterOpsInViewport_kept ops v marginBase)).
Qed.

Example filterOpsInViewport_example :
  let v := {| x := 10; y := 10; width := 20; height := 10; scale := 1 |} in
  @filterOpsInViewport _ point_ops
    [(5, 15); (31, 15); (30, 20); (6, 8); (0, 0); (34, 24); (35, 24)] v 2
  = [(31, 15); (30, 20); (6, 8); (34, 24)].
Proof. reflexivity. Qed.

(** * Redraw scheduler *)

Module ViewportRendererFacts.
Import ViewportRenderer ViewportRendererSpec.

Lemma shouldRedraw_needsFullRedraw (this : t) (v : ViewportInfo) (threshold : Q) :
  needsFullRedraw this = true -> shouldRedraw this v threshold = true.
Proof.
  intros Hd. unfold shouldRedraw. rewrite Hd. by destruct (lastViewport this).
Qed.

Lemma shouldRedraw_no_lastViewport (this : t) (v : ViewportInfo) (threshold : Q) :
  lastViewport this = None -> shouldRedraw this v threshold = true.
Proof. intros Hl. unfold shouldRedraw. by rewrite Hl. Qed.

(** Only [updateViewport] clears the flag. *)
Lemma exec_keeps_needsFullRedraw (this : t) (c : command) :
  is_update c = false ->
  needsFullRedraw this = true -> needsFullRedraw (exec this c) = true.
Proof. destruct c; simpl; [discriminate | reflexivity | reflexivity]. Qed.

Lemma run_keeps_needsFullRedraw (cs : list command) (this : t) :
  Forall (fun c => is_update c = false) cs ->
  needsFullRedraw this = true -> needsFullRedraw (run cs this) = true.
Proof.
  intros Hcs. revert this. induction Hcs as [| c cs Hc _ IH]; intros this Hd.
  - exact Hd.
  - simpl. apply IH. by apply exec_keeps_needsFullRedraw.
Qed.

Lemma state_of_updateViewport (this : t) (v : ViewportInfo) (w h : Q) :
  state_of (updateViewport this v w h) = Clean.
Proof. reflexivity. Qed.

Lemma state_of_reset (this : t) : state_of (reset this) = Uninitialized.
Proof. reflexivity. Qed.

Lemma shouldRedraw_not_Clean (this : t) (v : ViewportInfo) (threshold : Q) :
  state_of this <> Clean -> shouldRedraw this v threshold = true.
Proof.
  unfold state_of, shouldRedraw.
  destruct (lastViewport this), (needsFullRedraw this); congruence.
Qed.

Lemma Qabs_diff_eq (a b : Q) : a == b -> Qabs (a - b) == 0.
Proof.
  intros E. rewrite E.
  assert (Hz : b - b == 0) by ring. rewrite Hz. reflexivity.
Qed.

(** The redraw test from the clean state, as a proposition. *)
Lemma shouldRedraw_after_update
    (this : t) (v v' : ViewportInfo) (imageW imageH threshold : Q) :
  shouldRedraw (updateViewport this v imageW imageH) v' threshold = false <->
  Qabs (x v' - x v) <= width v' * threshold /\
  Qabs (y v' - y v) <= height v' * threshold /\
  Qabs (width v' - width v) <= width v' * threshold /\
  Qabs (height v' - height v) <= height v' * threshold /\
  Qabs (scale v' - scale v) <= 1 # 100.
Proof.
  unfold shouldRedraw. simpl.
  rewrite !orb_false_iff, !NumFacts.gt_false. tauto.
Qed.

(** C7. [shouldRedraw] returns [true], for every viewport and threshold, on
    a scheduler on which [updateViewport] has not been called since it was
    constructed or since its last [reset], and on any scheduler right after
    [markDirty]. *)
Theorem shouldRedraw_true_without_update
    (cs : list command) (this : t) (v : ViewportInfo) (threshold : Q) :
  Forall (fun c => is_update c = false) cs ->
  shouldRedraw (run cs new) v threshold = true /\
  shouldRedraw (run cs (reset this)) v threshold = true /\
  shouldRedraw (markDirty this) v threshold = true.
Proof.
  intros Hcs. repeat split; apply shouldRedraw_needsFullRedraw.
  - by apply run_keeps_needsFullRedraw.
  - by apply run_keeps_needsFullRedraw.
  - reflexivity.
Qed.

Lemma shouldRedraw_true_without_update_witness :
  let v := {| x := 0; y := 0; width := 800; height := 600; scale := 1 |} in
  let this := updateViewport new v 4096 4096 in
  shouldRedraw (run [MarkDirty; Reset; MarkDirty] new) v (1 # 10) = true /\
  shouldRedraw (run [MarkDirty; Reset; MarkDirty] (reset this)) v (1 # 10) = true /\
  shouldRedraw (markDirty this) v (1 # 10) = true.
Proof.
  apply shouldRedraw_true_without_update.
  repeat constructor.
Defined.

(** C6, as amended. After an update with viewport [v], for any threshold
    [t] and any new viewport [v'] that differs from [v] only in [x], with
    [|v'.x - v.x| < v'.width * t] and [v'.height * t >= 0] (true of every
    viewport of non-negative height, the threshold being positive there),
    [shouldRedraw v' t] returns [false]. *)
Theorem shouldRedraw_small_pan
    (this : t) (v v' : ViewportInfo) (imageW imageH threshold : Q) :
  y v' == y v -> width v' == width v -> height v' == height v ->
  scale v' == scale v ->
  Qabs (x v' - x v) < width v' * threshold ->
  0 <= height v' * threshold ->
  shouldRedraw (updateViewport this v imageW imageH) v' threshold = false.
Proof.
  intros Hy Hw Hh Hs Hdx Hht.
  apply shouldRedraw_after_update.
  rewrite (Qabs_diff_eq _ _ Hy), (Qabs_diff_eq _ _ Hw),
    (Qabs_diff_eq _ _ Hh), (Qabs_diff_eq _ _ Hs).
  pose proof (Qabs_nonneg (x v' - x v)).
  repeat split; lra.
Qed.

Lemma shouldRedraw_small_pan_witness :
  let v := {| x := 100; y := 50; width := 800; height := 600; scale := 1 |} in
  let v' := {| x := 130; y := 50; width := 800; height := 600; scale := 1 |} in
  shouldRedraw (updateViewport new v 4096 4096) v' (1 # 10) = false.
Proof.
  apply shouldRedraw_small_pan; simpl; try reflexivity.
  discriminate.
Defined.

(** C6 as stated fails: for a viewport of negative height the dead zone of
    the [y] test, [height * t], is negative, and an unchanged [y] already
    exceeds it. *)
Lemma shouldRedraw_negative_height :
  let v := {| x := 0; y := 0; width := 8; height := -1; scale := 1 |} in
  let v' := {| x := 1 # 2; y := 0; width := 8; height := -1; scale := 1 |} in
  (y v' == y v /\ width v' == width v /\ height v' == height v /\
   scale v' == scale v) /\
  Qabs (x v' - x v) < width v' * (1 # 8) /\
  shouldRedraw (updateViewport new v 16 16) v' (1 # 8) = true.
Proof. simpl. repeat split. Qed.

End ViewportRendererFacts.

(** * Bounded cache *)

Module ImageCacheManagerFacts.
Import ImageCacheManager ImageCacheManagerSpec.

Local Open Scope Z_scope.

(** ** The access-order array *)

Lemma indexOf_from_range (i : Z) (key : string) (l : list string) :
  indexOf_from i key l = -1 \/ i <= indexOf_from i key l.
Proof.
  revert i. induction l as [| k rest IH]; intros i; simpl; [by left |].
  destruct (String.eqb k key); [right; lia |].
  destruct (IH (i + 1)); [by left | right; lia].
Qed.

(** [indexOf] followed by [splice] removes the first occurrence. *)
Lemma splice_indexOf_from (i : Z) (key : string) (l : list string) :
  0 <= i ->
  (if indexOf_from i key l >? -1
   then splice1 (indexOf_from i key l - i) l else l) = remove_first key l.
Proof.
  revert i. induction l as [| k rest IH]; intros i Hi; simpl; [done |].
  destruct (String.eqb k key) eqn:E.
  - replace (i >? -1) with true by lia.
    unfold splice1. by replace (Z.to_nat (i - i)) with 0%nat by lia.
  - specialize (IH (i + 1) ltac:(lia)).
    destruct (indexOf_from_range (i + 1) key rest) as [Hn | Hr].
    + rewrite Hn in *. simpl in *. by rewrite <- IH.
    + replace (indexOf_from (i + 1) key rest >? -1) with true in * by lia.
      rewrite <- IH. unfold splice1.
      replace (Z.to_nat (indexOf_from (i + 1) key rest - i))
        with (S (Z.to_nat (indexOf_from (i + 1) key rest - (i + 1)))) by lia.
      reflexivity.
Qed.

Lemma accessOrder_updateAccessOrder (key : string) (this : t) :
  accessOrder (updateAccessOrder key this) =
  remove_first key (accessOrder this) ++ [key].
Proof.
  unfold updateAccessOrder. simpl. f_equal.
  rewrite <- (splice_indexOf_from 0 key (accessOrder this)) by lia.
  unfold indexOf. by rewrite Z.sub_0_r.
Qed.

Lemma cache_updateAccessOrder (key : string) (this : t) :
  cache (updateAccessOrder key this) = cache this.
Proof. reflexivity. Qed.

Lemma maxSize_updateAccessOrder (key : string) (this : t) :
  maxSize (updateAccessOrder key this) = maxSize this.
Proof. reflexivity. Qed.

Lemma remove_first_notin (key : string) (l : list string) :
  key ∉ l -> remove_first key l = l.
Proof.
  induction l as [| k rest IH]; intros Hn; simpl; [done |].
  apply not_elem_of_cons in Hn as [Hne Hn].
  destruct (String.eqb_spec k key); [congruence |]. by rewrite IH.
Qed.

Lemma remove_first_head (key : string) (l : list string) :
  remove_first key (key :: l) = l.
Proof. simpl. by rewrite String.eqb_refl. Qed.

Lemma elem_of_remove_first (key k : string) (l : list string) :
  NoDup l -> k ∈ remove_first key l <-> k ∈ l /\ k ≠ key.
Proof.
  induction 1 as [| k0 rest Hk0 Hnd IH]; simpl.
  - split; [by intros ?%elem_of_nil | by intros [?%elem_of_nil _]].
  - destruct (String.eqb_spec k0 key) as [-> | Hne].
    + rewrite elem_of_cons. split.
      * intros Hin. split; [by right | by intros ->].
      * by intros [[-> | Hin] Hk].
    + rewrite !elem_of_cons, IH. split.
      * intros [-> | [Hin Hk]]; [split; [by left | done] | split; [by right | done]].
      * intros [[-> | Hin] Hk]; [by left | by right].
Qed.

Lemma NoDup_remove_first (key : string) (l : list string) :
  NoDup l -> NoDup (remove_first key l).
Proof.
  induction 1 as [| k0 rest Hk0 Hnd IH]; simpl; [constructor |].
  destruct (String.eqb k0 key); [done |].
  constructor; [| done]. rewrite elem_of_remove_first by done. tauto.
Qed.

(** Pushing the key after removing it keeps the array free of duplicates. *)
Lemma NoDup_touch (key : string) (l : list string) :
  NoDup l -> NoDup (remove_first key l ++ [key]).
Proof.
  intros Hnd. apply NoDup_app. split; [by apply NoDup_remove_first |].
  split; [| apply NoDup_singleton].
  intros k Hk ->%list_elem_of_singleton.
  apply elem_of_remove_first in Hk; [tauto | done].
Qed.

Lemma elem_of_touch (key k : string) (l : list string) :
  NoDup l -> k ∈ remove_first key l ++ [key] <-> k = key \/ k ∈ l.
Proof.
  intros Hnd. rewrite elem_of_app, elem_of_remove_first, list_elem_of_singleton by done.
  destruct (decide (k = key)); tauto.
Qed.

(** ** The methods, case by case *)

Lemma updateAccessOrder_eq (key : string) (this : t) :
  updateAccessOrder key this =
  {| cache := cache this;
     maxSize := maxSize this;
     accessOrder := remove_first key (accessOrder this) ++ [key] |}.
Proof.
  rewrite <- accessOrder_updateAccessOrder. reflexivity.
Qed.

Lemma has_true (key : string) (this : t) :
  has key this = true <-> is_Some (cache this !! key).
Proof. unfold has. apply bool_decide_eq_true. Qed.

Lemma has_false (key : string) (this : t) :
  has key this = false <-> cache this !! key = None.
Proof.
  unfold has. rewrite bool_decide_eq_false. symmetry. apply eq_None_not_Some.
Qed.

Lemma truthy_Some (s : string) : truthy (Some s) = true <-> s <> "".
Proof.
  simpl. rewrite negb_true_iff. apply String.eqb_neq.
Qed.

(** [set] on a key that is present: no eviction. *)
Lemma set_present (key value : string) (this : t) :
  is_Some (cache this !! key) ->
  set key value this =
  {| cache := <[key := value]> (cache this);
     maxSize := maxSize this;
     accessOrder := remove_first key (accessOrder this) ++ [key] |}.
Proof.
  intros Hin. unfold set.
  replace (has key this) with true by (symmetry; by apply has_true).
  rewrite andb_false_r. by rewrite updateAccessOrder_eq.
Qed.

(** [set] below capacity: no eviction. *)
Lemma set_room (key value : string) (this : t) :
  getSize this < maxSize this ->
  set key value this =
  {| cache := <[key := value]> (cache this);
     maxSize := maxSize this;
     accessOrder := remove_first key (accessOrder this) ++ [key] |}.
Proof.
  intros Hlt. unfold set.
  replace (getSize this >=? maxSize this) with false by lia.
  simpl. by rewrite updateAccessOrder_eq.
Qed.

(** [set] of a new key at capacity: the head of the access order is
    shifted out, and deleted from the map if it is a non-empty string. *)
Lemma set_full (key value oldest : string) (rest : list string) (this : t) :
  maxSize this <= getSize this ->
  cache this !! key = None ->
  accessOrder this = oldest :: rest ->
  oldest <> "" ->
  set key value this =
  {| cache := <[key := value]> (delete oldest (cache this));
     maxSize := maxSize this;
     accessOrder := remove_first key rest ++ [key] |}.
Proof.
  intros Hge Hnew Hord Hne. unfold set.
  replace (getSize this >=? maxSize this) with true by lia.
  replace (has key this) with false by (symmetry; by apply has_false).
  rewrite Hord. cbn [andb negb shift].
  replace (truthy (Some oldest)) with true by (symmetry; by apply truthy_Some).
  by rewrite updateAccessOrder_eq.
Qed.

Lemma set_full_empty_key (key value : string) (rest : list string) (this : t) :
  maxSize this <= getSize this ->
  cache this !! key = None ->
  accessOrder this = "" :: rest ->
  set key value this =
  {| cache := <[key := value]> (cache this);
     maxSize := maxSize this;
     accessOrder := remove_first key rest ++ [key] |}.
Proof.
  intros Hge Hnew Hord. unfold set.
  replace (getSize this >=? maxSize this) with true by lia.
  replace (has key this) with false by (symmetry; by apply has_false).
  rewrite Hord. cbn [andb negb shift].
  by rewrite updateAccessOrder_eq.
Qed.

Lemma set_full_no_order (key value : string) (this : t) :
  maxSize this <= getSize this ->
  cache this !! key = None ->
  accessOrder this = [] ->
  set key value this =
  {| cache := <[key := value]> (cache this);
     maxSize := maxSize this;
     accessOrder := [key] |}.
Proof.
  intros Hge Hnew Hord. unfold set.
  replace (getSize this >=? maxSize this) with true by lia.
  replace (has key this) with false by (symmetry; by apply has_false).
  rewrite Hord. cbn [andb negb shift].
  by rewrite updateAccessOrder_eq.
Qed.

Lemma maxSize_set (key value : string) (this : t) :
  maxSize (set key value this) = maxSize this.
Proof.
  unfold set.
  destruct ((getSize this >=? maxSize this) && negb (has key this));
    [destruct (shift (accessOrder this)) |]; reflexivity.
Qed.

Lemma lookup_set_same (key value : string) (this : t) :
  cache (set key value this) !! key = Some value.
Proof.
  unfold set.
  destruct ((getSize this >=? maxSize this) && negb (has key this));
    [destruct (shift (accessOrder this)) |]; simpl; apply lookup_insert_eq.
Qed.

(** [get] on a hit with a non-empty value refreshes the key. *)
Lemma get_hit (key value : string) (this : t) :
  cache this !! key = Some value -> value <> "" ->
  get key this =
  (Some value,
   {| cache := cache this;
      maxSize := maxSize this;
      accessOrder := remove_first key (accessOrder this) ++ [key] |}).
Proof.
  intros Hv Hne. unfold get. rewrite Hv.
  replace (truthy (Some value)) with true by (symmetry; by apply truthy_Some).
  by rewrite updateAccessOrder_eq.
Qed.

(** [get] on a key whose value is the empty string returns the value and
    leaves the access order alone. *)
Lemma get_empty_value (key : string) (this : t) :
  cache this !! key = Some "" -> get key this = (Some "", this).
Proof. intros Hv. unfold get. by rewrite Hv. Qed.

Lemma get_miss (key : string) (this : t) :
  cache this !! key = None -> get key this = (None, this).
Proof. intros Hv. unfold get. by rewrite Hv. Qed.

Lemma get_value (key : string) (this : t) :
  fst (get key this) = cache this !! key.
Proof. unfold get. by destruct (truthy (cache this !! key)). Qed.

Lemma cache_get (key : string) (this : t) :
  cache (snd (get key this)) = cache this.
Proof. unfold get. by destruct (truthy (cache this !! key)). Qed.

Lemma maxSize_get (key : string) (this : t) :
  maxSize (snd (get key this)) = maxSize this.
Proof. unfold get. by destruct (truthy (cache this !! key)). Qed.

(** ** The invariant of the cache *)

Lemma live_length (order : list string) (m : gmap string string) :
  NoDup order -> live order m -> length order = size m.
Proof.
  intros Hnd Hl.
  rewrite <- (size_dom (D := gset string)), <- (size_list_to_set (C := gset string)) by done.
  f_equal. apply set_eq. intros k.
  rewrite elem_of_list_to_set, elem_of_dom. apply Hl.
Qed.

Lemma wf_length (this : t) :
  wf this -> Z.of_nat (length (accessOrder this)) = getSize this.
Proof. intros [Hnd Hl]. unfold getSize. f_equal. by apply live_length. Qed.

Lemma wf_has (this : t) (k : string) :
  wf this -> has k this = true <-> k ∈ accessOrder this.
Proof. intros [_ Hl]. rewrite has_true. symmetry. apply Hl. Qed.

Lemma live_touch (key value : string) (order : list string) (m : gmap string string) :
  NoDup order -> live order m ->
  live (remove_first key order ++ [key]) (<[key := value]> m).
Proof.
  intros Hnd Hl k. rewrite elem_of_touch, lookup_insert_is_Some' by done.
  rewrite (Hl k). split; intros [-> | ?]; auto.
Qed.

Lemma live_refresh (key : string) (order : list string) (m : gmap string string) :
  NoDup order -> live order m -> key ∈ order ->
  live (remove_first key order ++ [key]) m.
Proof.
  intros Hnd Hl Hin k. rewrite elem_of_touch by done.
  rewrite <- (Hl k). split; [intros [-> | ?]; done | auto].
Qed.

Lemma live_shift (oldest : string) (rest : list string) (m : gmap string string) :
  NoDup (oldest :: rest) -> live (oldest :: rest) m -> live rest (delete oldest m).
Proof.
  intros [Ho Hnd]%NoDup_cons Hl k.
  rewrite lookup_delete_is_Some, <- (Hl k), elem_of_cons. split.
  - intros Hin. split; [by intros -> | by right].
  - intros [Hne [-> | Hin]]; done.
Qed.

Lemma wf_new : wf new.
Proof.
  split; simpl; [constructor |].
  intros k. rewrite elem_of_nil, lookup_empty. split; [done | by intros [? ?]].
Qed.

Lemma wf_clear (this : t) : wf (clear this).
Proof.
  split; simpl; [constructor |].
  intros k. rewrite elem_of_nil, lookup_empty. split; [done | by intros [? ?]].
Qed.

Lemma wf_get (key : string) (this : t) : wf this -> wf (snd (get key this)).
Proof.
  intros [Hnd Hl]. unfold get.
  destruct (truthy (cache this !! key)) eqn:E; simpl; [| by split].
  rewrite updateAccessOrder_eq. split; simpl.
  - by apply NoDup_touch.
  - apply live_refresh; [done | done |]. apply Hl.
    destruct (cache this !! key); [by eexists | discriminate].
Qed.

(** [set] keeps the cache well-formed as long as no empty key is stored. *)
Lemma wf_set (key value : string) (this : t) :
  wf this -> "" ∉ accessOrder this -> wf (set key value this).
Proof.
  intros Hwf Hk. pose proof Hwf as [Hnd Hl].
  destruct (decide (maxSize this <= getSize this /\ cache this !! key = None))
    as [[Hge Hnew] | Hno].
  - destruct (accessOrder this) as [| oldest rest] eqn:Hord.
    + rewrite set_full_no_order by done. split; simpl.
      * apply NoDup_singleton.
      * rewrite <- (app_nil_l [key]).
        change (@nil string) with (remove_first key []).
        apply live_touch; [constructor | done].
    + apply not_elem_of_cons in Hk as [Hne _].
      rewrite (set_full key value oldest rest) by done. split; simpl.
      * apply NoDup_touch. by apply NoDup_cons in Hnd as [_ ?].
      * apply live_touch; [by apply NoDup_cons in Hnd as [_ ?] |].
        by apply live_shift.
  - assert (Hcase : getSize this < maxSize this \/ is_Some (cache this !! key)).
    { destruct (cache this !! key) eqn:E; [right; by eexists |].
      left. apply Z.lt_nge. intros Hge. by apply Hno. }
    assert (Heq : set key value this =
      {| cache := <[key := value]> (cache this);
         maxSize := maxSize this;
         accessOrder := remove_first key (accessOrder this) ++ [key] |}).
    { destruct Hcase; [by apply set_room | by apply set_present]. }
    rewrite Heq. split; simpl; [by apply NoDup_touch | by apply live_touch].
Qed.

Lemma keys_set (key value : string) (this : t) (k : string) :
  k ∈ accessOrder (set key value this) -> k = key \/ k ∈ accessOrder this.
Proof.
  unfold set.
  assert (Hrf : forall l, k ∈ remove_first key l ++ [key] -> k = key \/ k ∈ l).
  { intros l [Hin | Hin%list_elem_of_singleton]%elem_of_app; [right | by left].
    clear -Hin. induction l as [| k0 l IH]; simpl in *; [done |].
    destruct (String.eqb k0 key); [by right |].
    apply elem_of_cons in Hin as [-> | Hin]; [by left | right; auto]. }
  rewrite updateAccessOrder_eq. simpl.
  destruct ((getSize this >=? maxSize this) && negb (has key this)).
  - destruct (accessOrder this) as [| oldest rest]; simpl.
    + intros Hin%list_elem_of_singleton. by left.
    + intros Hin. apply Hrf in Hin as [? | ?]; [by left | right; by right].
  - apply Hrf.
Qed.

Lemma keys_get (key : string) (this : t) (k : string) :
  k ∈ accessOrder (snd (get key this)) -> k = key \/ k ∈ accessOrder this.
Proof.
  unfold get. destruct (truthy (cache this !! key)); cbn [snd]; [| by right].
  rewrite accessOrder_updateAccessOrder.
  intros [Hin | Hin%list_elem_of_singleton]%elem_of_app; [right | by left].
  induction (accessOrder this) as [| k0 l IH]; simpl in *; [done |].
  destruct (String.eqb k0 key); [by right |].
  apply elem_of_cons in Hin as [-> | Hin]; [by left | right; auto].
Qed.

(** [set] evicts before the capacity would be exceeded, as long as no
    empty key is stored. *)
Lemma size_set (key value : string) (this : t) :
  wf this -> "" ∉ accessOrder this -> 1 <= maxSize this ->
  getSize this <= maxSize this ->
  getSize (set key value this) <= maxSize this.
Proof.
  intros Hwf Hk Hmax Hsize. pose proof Hwf as [Hnd Hl].
  pose proof (wf_length this Hwf) as Hlen.
  destruct (decide (maxSize this <= getSize this /\ cache this !! key = None))
    as [[Hge Hnew] | Hno].
  - destruct (accessOrder this) as [| oldest rest] eqn:Hord.
    + simpl in Hlen. lia.
    + apply not_elem_of_cons in Hk as [Hne _].
      rewrite (set_full key value oldest rest) by done.
      unfold getSize in *. simpl.
      assert (Ho : is_Some (cache this !! oldest)) by (apply Hl; by left).
      rewrite map_size_insert_None by (apply lookup_delete_None; by right).
      rewrite map_size_delete_Some by done.
      apply map_size_ne_0_lookup_2 in Ho. lia.
  - assert (Hcase : getSize this < maxSize this \/ is_Some (cache this !! key)).
    { destruct (cache this !! key) eqn:E; [right; by eexists |].
      left. apply Z.lt_nge. intros Hge. by apply Hno. }
    destruct Hcase as [Hlt | Hin].
    + rewrite set_room by done. unfold getSize in *. simpl.
      rewrite map_size_insert. destruct (cache this !! key); simpl; lia.
    + rewrite set_present by done. unfold getSize in *. simpl.
      by rewrite map_size_insert_Some.
Qed.

(** [set] on a key that is present neither grows the cache nor evicts, and
    makes the key the most recently used one. *)
Lemma set_present_keeps (key value : string) (this : t) :
  is_Some (cache this !! key) ->
  getSize (set key value this) = getSize this /\
  (forall k, has k (set key value this) = has k this) /\
  last (accessOrder (set key value this)) = Some key.
Proof.
  intros Hin. rewrite set_present by done. unfold getSize, has. simpl.
  split; [| split].
  - by rewrite map_size_insert_Some.
  - intros k. apply bool_decide_ext. rewrite lookup_insert_is_Some'.
    split; [intros [<- | ?]; done | auto].
  - apply last_snoc.
Qed.

Lemma inv_new : inv new.
Proof. split; [apply wf_new | by intros ?%elem_of_nil | done]. Qed.

Lemma inv_set (key value : string) (this : t) :
  1 <= maxSize this -> key <> "" -> inv this -> inv (set key value this).
Proof.
  intros Hmax Hkey [Hwf Hk Hsize]. split.
  - by apply wf_set.
  - intros [<- | Hin]%keys_set; done.
  - rewrite maxSize_set. by apply size_set.
Qed.

Lemma inv_get (key : string) (this : t) : inv this -> inv (snd (get key this)).
Proof.
  intros [Hwf Hk Hsize]. split.
  - by apply wf_get.
  - intros Hin. unfold get in Hin.
    destruct (truthy (cache this !! key)) eqn:E; cbn [snd] in Hin; [| done].
    rewrite accessOrder_updateAccessOrder in Hin.
    apply elem_of_touch in Hin as [<- | Hin]; [| done | by destruct Hwf].
    apply Hk. apply Hwf. destruct (cache this !! ""); [by eexists | discriminate].
  - unfold getSize. by rewrite cache_get, maxSize_get.
Qed.

Lemma inv_clear (this : t) : 0 <= maxSize this -> inv (clear this).
Proof.
  intros Hmax. split; [apply wf_clear | by intros ?%elem_of_nil |].
  unfold getSize. simpl. by rewrite map_size_empty.
Qed.

Lemma maxSize_exec (this : t) (c : command) :
  maxSize (exec this c) = maxSize this.
Proof.
  destruct c as [key | key value | key |];
    [apply maxSize_get | apply maxSize_set | done | done].
Qed.

Lemma maxSize_run (cs : list command) (this : t) :
  maxSize (run cs this) = maxSize this.
Proof.
  revert this. induction cs as [| c cs IH]; intros this; simpl; [done |].
  unfold run in IH. by rewrite IH, maxSize_exec.
Qed.

Lemma inv_exec (this : t) (c : command) :
  1 <= maxSize this -> stores_empty_key c = false ->
  inv this -> inv (exec this c).
Proof.
  intros Hmax Hc Hinv. destruct c as [key | key value | key |]; cbn [exec].
  - by apply inv_get.
  - apply inv_set; [done | by apply String.eqb_neq | done].
  - done.
  - apply inv_clear. lia.
Qed.

(** For every sequence of operations that never stores under the empty
    key, the number of stored keys never exceeds the capacity and the access
    order holds each live key exactly once. *)
Theorem inv_run (cs : list command) (this : t) :
  1 <= maxSize this ->
  Forall (fun c => stores_empty_key c = false) cs ->
  inv this -> inv (run cs this).
Proof.
  intros Hmax Hcs. revert this Hmax.
  induction Hcs as [| c cs Hc _ IH]; intros this Hmax Hinv; [done |].
  simpl. apply IH; [by rewrite maxSize_exec | by apply inv_exec].
Qed.

Corollary capacity_respected (cs : list command) :
  Forall (fun c => stores_empty_key c = false) cs ->
  let this := run cs new in
  getSize this <= 10000 /\ NoDup (accessOrder this) /\
  forall k, k ∈ accessOrder this <-> has k this = true.
Proof.
  intros Hcs this.
  destruct (inv_run cs new ltac:(done) Hcs inv_new) as [Hwf _ Hsize].
  rewrite maxSize_run in Hsize. fold this in Hwf, Hsize.
  split; [done | split; [by destruct Hwf |]].
  intros k. symmetry. by apply wf_has.
Qed.

(** ** Filling the cache *)

Lemma run_app (cs1 cs2 : list command) (this : t) :
  run (cs1 ++ cs2) this = run cs2 (run cs1 this).
Proof. apply fold_left_app. Qed.

Lemma sets_snoc (kvs : list (string * string)) (k v : string) :
  sets (kvs ++ [(k, v)]) = sets kvs ++ [DoSet k v].
Proof. unfold sets. by rewrite map_app. Qed.

Lemma wf_empty (m : Z) : wf (empty m).
Proof.
  split; simpl; [constructor |].
  intros k. rewrite elem_of_nil, lookup_empty. split; [done | by intros [? ?]].
Qed.

Lemma wf_touch (key value : string) (this : t) :
  wf this ->
  wf {| cache := <[key := value]> (cache this);
        maxSize := maxSize this;
        accessOrder := remove_first key (accessOrder this) ++ [key] |}.
Proof.
  intros [Hnd Hl]. split; simpl; [by apply NoDup_touch | by apply live_touch].
Qed.

Lemma wf_evict_touch (key value oldest : string) (rest : list string) (this : t) :
  wf this -> accessOrder this = oldest :: rest ->
  wf {| cache := <[key := value]> (delete oldest (cache this));
        maxSize := maxSize this;
        accessOrder := remove_first key rest ++ [key] |}.
Proof.
  intros [Hnd Hl] Hord. rewrite Hord in *.
  assert (NoDup rest) by (by apply NoDup_cons in Hnd as [_ ?]).
  split; simpl; [by apply NoDup_touch |].
  apply live_touch; [done | by apply live_shift].
Qed.

Lemma wf_lookup_None (this : t) (k : string) :
  wf this -> k ∉ accessOrder this -> cache this !! k = None.
Proof.
  intros [_ Hl] Hk. apply eq_None_not_Some. intros Hs. by apply Hk, Hl.
Qed.

(** Below capacity, fresh keys are appended to the access order and nothing
    is evicted. *)
Lemma run_sets_room (kvs : list (string * string)) (this : t) :
  wf this -> NoDup kvs.*1 ->
  (forall k, k ∈ kvs.*1 -> k ∉ accessOrder this) ->
  getSize this + Z.of_nat (length kvs) <= maxSize this ->
  let that := run (sets kvs) this in
  wf that /\ accessOrder that = accessOrder this ++ kvs.*1 /\
  (forall k v, (k, v) ∈ kvs -> cache that !! k = Some v) /\
  (forall k, k ∉ kvs.*1 -> cache that !! k = cache this !! k).
Proof.
  revert this. induction kvs as [| [k v] kvs IH]; intros this Hwf Hnd Hfresh Hsize.
  - simpl. rewrite app_nil_r. split; [done | split; [done | split; [| done]]].
    by intros k v ?%elem_of_nil.
  - cbn [fmap list_fmap fst] in Hnd, Hfresh.
    apply NoDup_cons in Hnd as [Hk Hnd].
    assert (Hko : k ∉ accessOrder this) by (apply Hfresh; by left).
    assert (Hkc : cache this !! k = None) by (by apply wf_lookup_None).
    assert (Hset : set k v this =
      {| cache := <[k := v]> (cache this);
         maxSize := maxSize this;
         accessOrder := accessOrder this ++ [k] |}).
    { rewrite set_room by (unfold getSize in *; simpl length in *; lia).
      by rewrite remove_first_notin. }
    assert (Hwf1 : wf (set k v this)).
    { rewrite Hset. rewrite <- (remove_first_notin k (accessOrder this)) by done.
      by apply wf_touch. }
    destruct (IH (set k v this)) as (Hwf2 & Hord & Hin & Hout).
    + done.
    + done.
    + intros k' Hk'. rewrite Hset. simpl.
      rewrite elem_of_app, list_elem_of_singleton.
      intros [Ho | ->]; [| done]. revert Ho. apply Hfresh. by right.
    + rewrite maxSize_set. rewrite Hset. unfold getSize in *. simpl.
      rewrite map_size_insert_None by done. simpl length in Hsize. lia.
    + change (run (sets ((k, v) :: kvs)) this) with (run (sets kvs) (set k v this)).
      cbn zeta. split; [done | split; [| split]].
      * rewrite Hord, Hset. simpl. by rewrite <- app_assoc.
      * intros k' v' [[= -> ->] | Hkv]%elem_of_cons; [| by apply Hin].
        rewrite Hout by done. apply lookup_set_same.
      * intros k' [Hne Hk']%not_elem_of_cons.
        rewrite Hout by done. rewrite Hset. simpl.
        by rewrite lookup_insert_ne.
Qed.

(** ** One key more than the capacity *)

Section Overflow.

(** The capacity, the first key, the following [m - 1] pairs, and the pair
    that does not fit any more. *)
Variable m : Z.
Variables k1 v1 : string.
Variable mid : list (string * string).
Variables kx vx : string.

Hypothesis mid_length : Z.of_nat (length mid) + 1 = m.
Hypothesis keys_distinct : NoDup (k1 :: mid.*1 ++ [kx]).

Local Abbreviation full := (ImageCacheManagerSpec.full m k1 v1 mid) (only parsing).
Local Abbreviation over :=
  (ImageCacheManagerSpec.over m k1 v1 mid kx vx) (only parsing).

Lemma over_set_full : over = set kx vx full.
Proof.
  unfold over, full. by rewrite app_comm_cons, sets_snoc, run_app.
Qed.

Lemma keys_distinct_front : NoDup (k1 :: mid.*1) /\ kx ∉ k1 :: mid.*1.
Proof.
  pose proof keys_distinct as Hall. rewrite app_comm_cons in Hall.
  apply NoDup_app in Hall as (Hnd & Hx & _). split; [done |].
  intros Hin. apply (Hx kx Hin). by left.
Qed.

Lemma full_shape :
  wf full /\ accessOrder full = k1 :: mid.*1 /\
  maxSize full = m /\ getSize full = m /\
  (forall k v, (k, v) ∈ (k1, v1) :: mid -> cache full !! k = Some v) /\
  (forall k, k ∉ k1 :: mid.*1 -> cache full !! k = None).
Proof.
  destruct keys_distinct_front as [Hnd _].
  destruct (run_sets_room ((k1, v1) :: mid) (empty m)) as (Hwf & Hord & Hin & Hout).
  - apply wf_empty.
  - done.
  - intros k _. simpl. by intros ?%elem_of_nil.
  - unfold getSize. simpl. rewrite map_size_empty.
    change (length ((k1, v1) :: mid)) with (S (length mid)). lia.
  - fold full in Hwf, Hord, Hin, Hout. simpl in Hord.
    split; [done | split; [done | split; [| split; [| split]]]].
    + unfold full. by rewrite maxSize_run.
    + rewrite <- (wf_length full Hwf), Hord. simpl length.
      rewrite length_fmap. lia.
    + done.
    + intros k Hk. by rewrite Hout.
Qed.

(** With a non-empty first key, the overflowing [set] evicts exactly that
    key. *)
Lemma over_shape :
  k1 <> "" ->
  over = {| cache := <[kx := vx]> (delete k1 (cache full));
            maxSize := m;
            accessOrder := mid.*1 ++ [kx] |} /\
  wf over /\ getSize over = m.
Proof.
  intros Hk1.
  destruct full_shape as (Hwf & Hord & Hmax & Hsize & Hin & Hout).
  destruct keys_distinct_front as [Hnd Hx].
  assert (Hxm : kx ∉ mid.*1) by (by apply not_elem_of_cons in Hx as [_ ?]).
  assert (Heq : over =
    {| cache := <[kx := vx]> (delete k1 (cache full));
       maxSize := m;
       accessOrder := mid.*1 ++ [kx] |}).
  { rewrite over_set_full.
    rewrite (set_full kx vx k1 mid.*1 full); [| lia | by apply Hout | done | done].
    by rewrite Hmax, remove_first_notin. }
  assert (Hwfo : wf over).
  { rewrite Heq.
    pose proof (wf_evict_touch kx vx k1 mid.*1 full Hwf Hord) as W.
    by rewrite Hmax, remove_first_notin in W. }
  split; [done | split; [done |]].
  rewrite <- (wf_length over Hwfo), Heq. simpl.
  rewrite length_app, length_fmap. simpl. lia.
Qed.

(** With the empty string as first key, the overflowing [set] shifts the
    key out of the access order but leaves it in the map: the cache holds
    one key more than its capacity. *)
Lemma over_empty_key :
  k1 = "" ->
  getSize over = m + 1 /\ has "" over = true /\ "" ∉ accessOrder over.
Proof.
  intros Hk1.
  destruct full_shape as (Hwf & Hord & Hmax & Hsize & Hin & Hout).
  destruct keys_distinct_front as [Hnd Hx].
  assert (Hxm : kx ∉ mid.*1) by (by apply not_elem_of_cons in Hx as [_ ?]).
  assert (Heq : over =
    {| cache := <[kx := vx]> (cache full);
       maxSize := m;
       accessOrder := mid.*1 ++ [kx] |}).
  { rewrite over_set_full.
    rewrite (set_full_empty_key kx vx mid.*1 full);
      [| lia | by apply Hout | by rewrite Hord, Hk1].
    by rewrite Hmax, remove_first_notin. }
  rewrite Heq, <- Hk1. unfold getSize, has. simpl. split; [| split].
  - rewrite map_size_insert_None by (by apply Hout).
    unfold getSize in Hsize. lia.
  - apply bool_decide_eq_true. rewrite lookup_insert_is_Some'. right.
    exists v1. apply Hin. by left.
  - apply NoDup_cons in Hnd as [H1 _]. apply not_elem_of_cons in Hx as [Hne _].
    rewrite elem_of_app, list_elem_of_singleton. intros [? | ?]; done.
Qed.

End Overflow.

(** ** The round trip: overflow, [get], overflow again *)

Section RoundTrip.

(** The capacity [m]; the keys [k1 .. k_(m+1)] with their values, the first
    pair apart from the [m - 1] pairs of [mid] and the last pair
    [(kx, vx)]; the pair [(kb, vb)] of key [k_(m+2)]; and names for the
    second and third key. *)
Variable m : Z.
Variables k1 v1 : string.
Variable mid : list (string * string).
Variables kx vx kb vb : string.
Variables k2 v2 k3 : string.
Variable rest : list string.

Hypothesis mid_length : Z.of_nat (length mid) + 1 = m.
Hypothesis keys_distinct : NoDup ((k1 :: mid.*1 ++ [kx]) ++ [kb]).
Hypothesis second_third : mid.*1 ++ [kx] = k2 :: k3 :: rest.
Hypothesis second_value : (k2, v2) ∈ mid ++ [(kx, vx)].
Hypothesis k1_nonempty : k1 <> "".

Local Abbreviation after_overflow :=
  (ImageCacheManagerSpec.after_overflow m k1 v1 mid kx vx) (only parsing).
Local Abbreviation after_get :=
  (ImageCacheManagerSpec.after_get m k1 v1 mid kx vx k2) (only parsing).
Local Abbreviation after_second_overflow :=
  (ImageCacheManagerSpec.after_second_overflow m k1 v1 mid kx vx kb vb k2)
  (only parsing).

Lemma after_overflow_eq :
  after_overflow = run (sets ((k1, v1) :: mid ++ [(kx, vx)])) (empty m).
Proof. reflexivity. Qed.

Lemma after_second_overflow_eq :
  after_second_overflow = set kb vb (snd (get k2 after_overflow)).
Proof. reflexivity. Qed.

Lemma keys_distinct_first : NoDup (k1 :: mid.*1 ++ [kx]).
Proof. by apply NoDup_app in keys_distinct as [? _]. Qed.

Lemma kb_fresh : kb ∉ k1 :: mid.*1 ++ [kx].
Proof.
  apply NoDup_app in keys_distinct as (_ & Hx & _).
  intros Hin. apply (Hx kb Hin). by left.
Qed.

Lemma after_overflow_shape :
  wf after_overflow /\ accessOrder after_overflow = k2 :: k3 :: rest /\
  maxSize after_overflow = m /\ getSize after_overflow = m /\
  cache after_overflow !! k2 = Some v2 /\
  cache after_overflow !! kb = None.
Proof.
  pose proof keys_distinct_first as Hnd.
  destruct (over_shape m k1 v1 mid kx vx mid_length Hnd k1_nonempty)
    as (Heq & Hwf & Hsize).
  destruct (full_shape m k1 v1 mid kx mid_length Hnd)
    as (_ & _ & _ & _ & Hin & _).
  destruct (keys_distinct_front k1 mid kx Hnd) as [Hnd1 Hx].
  apply NoDup_cons in Hnd1 as [Hk1 _]. apply not_elem_of_cons in Hx as [Hxk1 Hxm].
  fold after_overflow in Heq, Hwf, Hsize.
  assert (Hord : accessOrder after_overflow = k2 :: k3 :: rest)
    by (by rewrite Heq, <- second_third).
  split; [done | split; [done | split; [by rewrite Heq | split; [done | split]]]].
  - rewrite Heq. simpl.
    pose proof second_value as [Hm | [= -> ->]%list_elem_of_singleton]%elem_of_app.
    + assert (Hk2 : k2 ∈ mid.*1) by (by apply (list_elem_of_fmap_2 fst mid (k2, v2))).
      rewrite lookup_insert_ne by (by intros ->).
      rewrite lookup_delete_ne by (by intros ->).
      apply Hin. by right.
    + apply lookup_insert_eq.
  - apply wf_lookup_None; [done |]. rewrite Hord, <- second_third.
    intros Hin'. apply kb_fresh. by right.
Qed.

(** [get k2] on a non-empty value moves [k2] behind all other keys; the
    second overflow then evicts [k3]. *)
Lemma refreshed_shape :
  v2 <> "" -> k3 <> "" ->
  wf after_second_overflow /\
  accessOrder after_second_overflow = rest ++ [k2; kb].
Proof.
  intros Hv2 Hk3.
  destruct after_overflow_shape as (Hwf & Hord & Hmax & Hsize & Hk2 & Hkb).
  assert (Hget : after_get =
    {| cache := cache after_overflow;
       maxSize := m;
       accessOrder := k3 :: rest ++ [k2] |}).
  { unfold after_get. rewrite (get_hit k2 v2) by done.
    cbn [snd]. by rewrite Hord, remove_first_head, Hmax. }
  assert (Hwfg : wf after_get) by (by apply wf_get).
  assert (Hnew : kb ∉ rest ++ [k2]).
  { intros Hin. apply kb_fresh. right. rewrite second_third.
    apply elem_of_app in Hin as [Hin | ->%list_elem_of_singleton].
    - by do 2 right.
    - by left. }
  assert (Heq : after_second_overflow =
    {| cache := <[kb := vb]> (delete k3 (cache after_get));
       maxSize := maxSize after_get;
       accessOrder := remove_first kb (rest ++ [k2]) ++ [kb] |}).
  { unfold after_second_overflow.
    apply (set_full kb vb k3 (rest ++ [k2]) after_get); [| | by rewrite Hget | done].
    - rewrite Hget. unfold getSize in *. simpl. lia.
    - rewrite Hget. by simpl. }
  split.
  - rewrite Heq. apply wf_evict_touch; [done | by rewrite Hget].
  - rewrite Heq. simpl. rewrite remove_first_notin by done.
    by rewrite <- app_assoc.
Qed.

(** [get k2] on an empty value leaves the access order alone; the second
    overflow then evicts [k2] itself. *)
Lemma stale_shape :
  v2 = "" -> k2 <> "" ->
  wf after_second_overflow /\
  accessOrder after_second_overflow = k3 :: rest ++ [kb].
Proof.
  intros Hv2 Hk2ne.
  destruct after_overflow_shape as (Hwf & Hord & Hmax & Hsize & Hk2 & Hkb).
  assert (Hget : after_get = after_overflow).
  { unfold after_get. rewrite get_empty_value; [done | by rewrite Hk2, Hv2]. }
  assert (Hnew : kb ∉ k3 :: rest).
  { intros Hin. apply kb_fresh. right. rewrite second_third. by right. }
  assert (Heq : after_second_overflow =
    {| cache := <[kb := vb]> (delete k2 (cache after_overflow));
       maxSize := maxSize after_overflow;
       accessOrder := remove_first kb (k3 :: rest) ++ [kb] |}).
  { unfold after_second_overflow. rewrite Hget.
    apply (set_full kb vb k2 (k3 :: rest) after_overflow); [lia | done | done | done]. }
  split.
  - rewrite Heq. by apply wf_evict_touch.
  - rewrite Heq. cbn [accessOrder]. by rewrite remove_first_notin.
Qed.

Lemma wf_has_false (this : t) (k : string) :
  wf this -> has k this = false <-> k ∉ accessOrder this.
Proof.
  intros Hwf. rewrite <- (wf_has this k Hwf). symmetry. apply not_true_iff_false.
Qed.

Lemma keys_distinct_named : NoDup ((k1 :: k2 :: k3 :: rest) ++ [kb]).
Proof. rewrite <- second_third. exact keys_distinct. Qed.

(** The first overflow evicts exactly [k1]. *)
Lemma overflow_evicts_first :
  has k1 after_overflow = false /\
  forall k, k ∈ mid.*1 ++ [kx] -> has k after_overflow = true.
Proof.
  destruct after_overflow_shape as (Hwf & Hord & _).
  pose proof keys_distinct_first as [Hk1 _]%NoDup_cons.
  split.
  - apply wf_has_false; [done |]. by rewrite Hord, <- second_third.
  - intros k Hk. apply wf_has; [done |]. by rewrite Hord, <- second_third.
Qed.

(** After a refreshing [get k2], the second overflow evicts [k3] and keeps
    every other key. *)
Lemma refreshed_evicts_third :
  v2 <> "" -> k3 <> "" ->
  has k3 after_second_overflow = false /\
  has k1 after_second_overflow = false /\
  has k2 after_second_overflow = true /\
  has kb after_second_overflow = true /\
  forall k, k ∈ rest -> has k after_second_overflow = true.
Proof.
  intros Hv2 Hk3. destruct (refreshed_shape Hv2 Hk3) as [Hwf Hord].
  pose proof keys_distinct_named as (Hnd & Hkb & _)%NoDup_app.
  apply NoDup_cons in Hnd as [Hk1 Hnd].
  apply NoDup_cons in Hnd as [Hk2 Hnd].
  apply NoDup_cons in Hnd as [Hk3r _].
  apply not_elem_of_cons in Hk1 as [H12 Hk1].
  apply not_elem_of_cons in Hk1 as [H13 Hk1r].
  apply not_elem_of_cons in Hk2 as [H23 Hk2r].
  assert (k1 <> kb /\ k3 <> kb) as [H1b H3b].
  { split; intros ->.
    - apply (Hkb kb); by left.
    - apply (Hkb kb); [by do 2 right; left | by left]. }
  split; [| split; [| split; [| split]]].
  - apply wf_has_false; [done |]. rewrite Hord.
    rewrite elem_of_app, !elem_of_cons, elem_of_nil. intuition congruence.
  - apply wf_has_false; [done |]. rewrite Hord.
    rewrite elem_of_app, !elem_of_cons, elem_of_nil. intuition congruence.
  - apply wf_has; [done |]. rewrite Hord.
    rewrite elem_of_app, !elem_of_cons. intuition congruence.
  - apply wf_has; [done |]. rewrite Hord.
    rewrite elem_of_app, !elem_of_cons. intuition congruence.
  - intros k Hk. apply wf_has; [done |]. rewrite Hord.
    rewrite elem_of_app. by left.
Qed.

(** After a [get k2] that found the empty string, the second overflow
    evicts [k2] and keeps [k3]. *)
Lemma stale_evicts_second :
  v2 = "" -> k2 <> "" ->
  has k2 after_second_overflow = false /\
  has k3 after_second_overflow = true.
Proof.
  intros Hv2 Hk2. destruct (stale_shape Hv2 Hk2) as [Hwf Hord].
  pose proof keys_distinct_named as (Hnd & Hkb & _)%NoDup_app.
  apply NoDup_cons in Hnd as [_ Hnd].
  apply NoDup_cons in Hnd as [Hk2r _].
  assert (k2 <> kb) as H2b.
  { intros ->. apply (Hkb kb); [by right; left | by left]. }
  split.
  - apply wf_has_false; [done |]. rewrite Hord.
    rewrite app_comm_cons, elem_of_app, list_elem_of_singleton. intuition congruence.
  - apply wf_has; [done |]. rewrite Hord. by left.
Qed.

(** The same, read on the operations themselves. *)
Lemma stale_round_trip :
  v2 = "" -> k2 <> "" ->
  has k1 (run (sets ((k1, v1) :: mid ++ [(kx, vx)])) (empty m)) = false /\
  fst (get k2 (run (sets ((k1, v1) :: mid ++ [(kx, vx)])) (empty m))) = Some "" /\
  has k2 (set kb vb
            (snd (get k2 (run (sets ((k1, v1) :: mid ++ [(kx, vx)])) (empty m)))))
    = false /\
  has k3 (set kb vb
            (snd (get k2 (run (sets ((k1, v1) :: mid ++ [(kx, vx)])) (empty m)))))
    = true.
Proof.
  intros Hv2 Hk2.
  destruct overflow_evicts_first as [H1 _].
  destruct after_overflow_shape as (_ & _ & _ & _ & Hget & _).
  destruct (stale_evicts_second Hv2 Hk2) as [H2 H3].
  rewrite <- Hv2, get_value. auto.
Qed.

End RoundTrip.

(** ** Concrete keys for the cache of capacity 10000 *)

Example key_2 : key 2 = "k2".
Proof. reflexivity. Qed.

Example key_10002 : key 10002 = "k10002".
Proof. reflexivity. Qed.

#[local] Instance key_inj : Inj (=) (=) key.
Proof. intros i j H. unfold key in H. simpl in H. injection H as H. by apply (inj pretty). Qed.

Lemma key_nonempty (i : Z) : key i <> "".
Proof. discriminate. Qed.

Lemma keys_entry (empty_at : Z) (l : list Z) : (entry empty_at <$> l).*1 = key <$> l.
Proof. rewrite <- list_fmap_compose. by apply list_fmap_ext. Qed.

Lemma seqZ_snoc (a n : Z) : 0 <= n -> seqZ a (n + 1) = seqZ a n ++ [a + n].
Proof.
  intros Hn. rewrite seqZ_app by lia. f_equal.
Qed.

Lemma seqZ_first_last (a n : Z) :
  0 <= n -> seqZ a (n + 2) = a :: seqZ (a + 1) n ++ [a + 1 + n].
Proof.
  intros Hn. rewrite seqZ_cons by lia.
  replace (Z.pred (n + 2)) with (n + 1) by lia.
  by rewrite seqZ_snoc.
Qed.

Lemma NoDup_keys (a n : Z) : NoDup (key <$> seqZ a n).
Proof. apply (NoDup_fmap_2 key), NoDup_seqZ. Qed.

Lemma empty_not_key (l : list Z) : "" ∉ key <$> l.
Proof.
  intros (i & Hi & _)%list_elem_of_fmap. by apply (key_nonempty i).
Qed.

(** C5, the failing input. On the cache of capacity 10000, storing under
    the empty string first and then under the 10000 keys ["k1"] ..
    ["k10000"] leaves 10001 keys in the map: the last [set] shifts the
    empty string out of the access order but, the empty string being false
    in a condition, does not delete it. The empty key is then live and
    absent from the access order. *)
Theorem capacity_exceeded_with_empty_key :
  let that := run (sets (("", "data") :: (entry 0 <$> seqZ 1 10000))) new in
  maxSize that = 10000 /\ getSize that = 10001 /\
  has "" that = true /\ "" ∉ accessOrder that.
Proof.
  assert (Hrun :
    run (sets (("", "data") :: (entry 0 <$> seqZ 1 10000))) new =
    over 10000 "" "data" (entry 0 <$> seqZ 1 9999) (key 10000) "data").
  { unfold over. change (seqZ 1 10000) with (seqZ 1 (9999 + 1)).
    rewrite seqZ_snoc, fmap_app by lia. reflexivity. }
  cbn zeta. rewrite Hrun.
  split; [unfold over; by rewrite maxSize_run |].
  apply (over_empty_key 10000 "" "data" (entry 0 <$> seqZ 1 9999) (key 10000) "data").
  - rewrite length_fmap, length_seqZ. lia.
  - rewrite keys_entry. apply NoDup_cons. split.
    + rewrite <- (fmap_snoc key (seqZ 1 9999) 10000). apply empty_not_key.
    + rewrite <- (fmap_snoc key (seqZ 1 9999) 10000).
      change (seqZ 1 9999 ++ [10000]) with (seqZ 1 9999 ++ [1 + 9999]).
      rewrite <- (seqZ_snoc 1 9999) by lia. apply NoDup_keys.
  - reflexivity.
Qed.

Lemma new_empty : new = empty 10000.
Proof. reflexivity. Qed.

(** The round trip on the cache of capacity 10000, for keys and values
    that are not the empty string where it matters: storing under 10001
    distinct keys evicts exactly the first; a following [get] of the second
    key and [set] of a further key evicts the third key, not the second. *)
Theorem lru_round_trip
    (k1 v1 : string) (mid : list (string * string))
    (kx vx kb vb k2 v2 k3 : string) (rest : list string) :
  Z.of_nat (length mid) + 1 = 10000 ->
  NoDup ((k1 :: mid.*1 ++ [kx]) ++ [kb]) ->
  mid.*1 ++ [kx] = k2 :: k3 :: rest ->
  (k2, v2) ∈ mid ++ [(kx, vx)] ->
  k1 <> "" -> k3 <> "" -> v2 <> "" ->
  let filled := run (sets ((k1, v1) :: mid ++ [(kx, vx)])) new in
  let final := set kb vb (snd (get k2 filled)) in
  (has k1 filled = false /\
   forall k, k ∈ mid.*1 ++ [kx] -> has k filled = true) /\
  (has k3 final = false /\ has k1 final = false /\
   has k2 final = true /\ has kb final = true /\
   forall k, k ∈ rest -> has k final = true).
Proof.
  intros Hlen Hnd H23 Hv Hk1 Hk3 Hv2. cbn zeta.
  rewrite new_empty, <- (after_overflow_eq 10000 k1 v1 mid kx vx).
  rewrite <- (after_second_overflow_eq 10000 k1 v1 mid kx vx kb vb k2).
  split.
  - by apply (overflow_evicts_first 10000 k1 v1 mid kx vx kb k2 v2 k3 rest).
  - by apply (refreshed_evicts_third 10000 k1 v1 mid kx vx kb vb k2 v2 k3 rest).
Qed.

(** The 10001 pairs [entry e 1 .. entry e 10001], and their keys. *)
Lemma entries_first_last (e : Z) :
  e <> 1 -> e <> 10001 ->
  entry e <$> seqZ 1 10001 =
  (key 1, "data") :: (entry e <$> seqZ 2 9999) ++ [(key 10001, "data")].
Proof.
  intros H1 H2.
  assert (E1 : entry e 1 = (key 1, "data")).
  { unfold entry. by destruct (Z.eqb_spec 1 e). }
  assert (E2 : entry e (1 + 1 + 9999) = (key 10001, "data")).
  { unfold entry. by destruct (Z.eqb_spec (1 + 1 + 9999) e). }
  change (seqZ 1 10001) with (seqZ 1 (9999 + 2)).
  rewrite seqZ_first_last, fmap_cons, fmap_app by lia.
  change (entry e <$> [1 + 1 + 9999]) with [entry e (1 + 1 + 9999)].
  rewrite E1, E2. reflexivity.
Qed.

Lemma entries_length (e : Z) :
  Z.of_nat (length (entry e <$> seqZ 2 9999)) + 1 = 10000.
Proof. rewrite length_fmap, length_seqZ. lia. Qed.

Lemma entries_distinct (e : Z) :
  NoDup ((key 1 :: (entry e <$> seqZ 2 9999).*1 ++ [key 10001]) ++ [key 10002]).
Proof.
  rewrite keys_entry.
  assert (E : (key 1 :: (key <$> seqZ 2 9999) ++ [key 10001]) ++ [key 10002]
              = key <$> seqZ 1 10002).
  { change (seqZ 1 10002) with (seqZ 1 (10001 + 1)).
    rewrite seqZ_snoc by lia.
    change (seqZ 1 10001) with (seqZ 1 (9999 + 2)).
    rewrite seqZ_first_last by lia.
    rewrite fmap_app, fmap_cons, fmap_app. reflexivity. }
  rewrite E. apply NoDup_keys.
Qed.

Lemma entries_second_third (e : Z) :
  (entry e <$> seqZ 2 9999).*1 ++ [key 10001] =
  key 2 :: key 3 :: (key <$> seqZ 4 9997) ++ [key 10001].
Proof.
  rewrite keys_entry.
  rewrite (seqZ_cons 2 9999), (seqZ_cons (Z.succ 2)) by lia.
  reflexivity.
Qed.

Lemma entries_second_value (e : Z) :
  entry e 2 ∈ (entry e <$> seqZ 2 9999) ++ [(key 10001, "data")].
Proof.
  apply elem_of_app. left.
  rewrite (seqZ_cons 2 9999), fmap_cons by lia. by left.
Qed.

(** The round trip on the keys ["k1"] .. ["k10002"], every value being
    ["data"]: first ["k1"] is evicted, then ["k3"]. *)
Corollary lru_round_trip_keys :
  let filled := run (sets (entry 0 <$> seqZ 1 10001)) new in
  let final := set (key 10002) "data" (snd (get (key 2) filled)) in
  has (key 1) filled = false /\ has (key 2) filled = true /\
  has (key 3) final = false /\ has (key 2) final = true /\
  has (key 10002) final = true.
Proof.
  cbn zeta. rewrite entries_first_last by done.
  destruct (lru_round_trip (key 1) "data" (entry 0 <$> seqZ 2 9999)
              (key 10001) "data" (key 10002) "data" (key 2) "data" (key 3)
              ((key <$> seqZ 4 9997) ++ [key 10001])
              (entries_length 0) (entries_distinct 0) (entries_second_third 0)
              (entries_second_value 0) (key_nonempty 1) (key_nonempty 3))
    as [[H1 Hall] (H3 & _ & H2 & Hb & _)]; [discriminate |].
  split; [exact H1 | split; [| exact (conj H3 (conj H2 Hb))]].
  apply Hall. rewrite entries_second_third. by left.
Qed.

(** C4, the failing input. On the cache of capacity 10000, store under
    the keys ["k1"] .. ["k10001"], the value of ["k2"] being the empty
    string: ["k1"] is evicted. Then [get "k2"] finds the empty string, which
    is false in the condition of [get], so ["k2"] is not marked as recently
    used; storing under ["k10002"] evicts ["k2"] and keeps ["k3"]. *)
Theorem get_of_empty_value_does_not_refresh :
  let filled := run (sets (entry 2 <$> seqZ 1 10001)) new in
  let final := set (key 10002) "data" (snd (get (key 2) filled)) in
  has (key 1) filled = false /\
  fst (get (key 2) filled) = Some "" /\
  has (key 2) final = false /\ has (key 3) final = true.
Proof.
  cbn zeta. rewrite entries_first_last, new_empty by done.
  exact (stale_round_trip 10000 (key 1) "data" (entry 2 <$> seqZ 2 9999)
           (key 10001) "data" (key 10002) "data" (key 2) "" (key 3)
           ((key <$> seqZ 4 9997) ++ [key 10001])
           (entries_length 2) (entries_distinct 2) (entries_second_third 2)
           (entries_second_value 2) (key_nonempty 1) eq_refl (key_nonempty 2)).
Qed.

(** ** The same behaviours at capacity 2 *)

(** The scenario of the specification: [set a], [set b], [get a], [set c]
    evicts [b]. *)
Example capacity_2_scenario :
  let that :=
    run [DoSet "a" "1"; DoSet "b" "2"; DoGet "a"; DoSet "c" "3"] (empty 2) in
  has "b" that = false /\ has "a" that = true /\ has "c" that = true /\
  accessOrder that = ["a"; "c"] /\ getSize that = 2.
Proof. vm_compute. repeat split. Qed.

(** With the empty string as the value of [a], the [get] does not refresh
    [a], and [a] is evicted instead of [b]. *)
Example capacity_2_empty_value :
  let that :=
    run [DoSet "a" ""; DoSet "b" "2"; DoGet "a"; DoSet "c" "3"] (empty 2) in
  has "a" that = false /\ has "b" that = true /\ has "c" that = true /\
  accessOrder that = ["b"; "c"].
Proof. vm_compute. repeat split. Qed.

(** With the empty string as first key, nothing is evicted. *)
Example capacity_2_empty_key :
  let that := run [DoSet "" "0"; DoSet "b" "2"; DoSet "c" "3"] (empty 2) in
  has "" that = true /\ has "b" that = true /\ has "c" that = true /\
  accessOrder that = ["b"; "c"] /\ getSize that = 3.
Proof. vm_compute. repeat split. Qed.

End ImageCacheManagerFacts.

(** * Further properties of the geometry calculator *)

Lemma div_mul_cancel (a s : Q) : 0 < s -> a / s * s == a.
Proof. intros Hs. field. lra. Qed.

Lemma div_nonneg (a s : Q) : 0 < s -> 0 <= a -> 0 <= a / s.
Proof. intros Hs Ha. apply Qle_shift_div_l; lra. Qed.

Lemma calculateViewport_fits
    (containerW containerH imageW imageH zoom panX panY : Q) :
  0 < zoom ->
  imageW * (zoom / 100) <= containerW ->
  imageH * (zoom / 100) <= containerH ->
  0 <= (containerW - imageW * (zoom / 100)) / 2 + panX ->
  0 <= (containerH - imageH * (zoom / 100)) / 2 + panY ->
  let v := calculateViewport containerW containerH imageW imageH zoom panX panY in
  x v == 0 /\ y v == 0 /\ width v == imageW /\ height v == imageH.
Proof.
  intros Hz HfitW HfitH HleftW HleftH. unfold calculateViewport. simpl.
  assert (Hs : 0 < zoom / 100) by (apply div_pos; lra).
  set (s := zoom / 100) in *. clearbody s.
  pose proof (div_nonpos (- ((containerW - imageW * s) / 2 + panX)) s Hs
                ltac:(lra)).
  pose proof (div_nonpos (- ((containerH - imageH * s) / 2 + panY)) s Hs
                ltac:(lra)).
  assert (imageW <= containerW / s) by (apply Qle_shift_div_l; lra).
  assert (imageH <= containerH / s) by (apply Qle_shift_div_l; lra).
  repeat split; split_minmax; lra.
Qed.

(** X1. An image that fits into the container at the current scale and whose
    left and top edges are inside the container is visible as a whole: the
    viewport is the entire image. *)
Theorem calculateViewport_whole_image
    (containerW containerH imageW imageH zoom panX panY : Q) :
  0 < zoom ->
  imageW * (zoom / 100) <= containerW ->
  imageH * (zoom / 100) <= containerH ->
  0 <= (containerW - imageW * (zoom / 100)) / 2 + panX ->
  0 <= (containerH - imageH * (zoom / 100)) / 2 + panY ->
  let v := calculateViewport containerW containerH imageW imageH zoom panX panY in
  x v == 0 /\ y v == 0 /\ width v == imageW /\ height v == imageH.
Proof. apply calculateViewport_fits. Qed.

Lemma calculateViewport_whole_image_witness :
  let v := calculateViewport 800 600 16 16 400 100 (-50) in
  x v == 0 /\ y v == 0 /\ width v == 16 /\ height v == 16.
Proof. apply calculateViewport_whole_image; qle_compute || reflexivity. Defined.

Lemma calculateViewport_covering
    (containerW containerH imageW imageH zoom panX panY : Q) :
  0 < zoom ->
  let s := zoom / 100 in
  let imgLeft := (containerW - imageW * s) / 2 + panX in
  let imgTop := (containerH - imageH * s) / 2 + panY in
  imgLeft <= 0 -> containerW <= imgLeft + imageW * s ->
  imgTop <= 0 -> containerH <= imgTop + imageH * s ->
  let v := calculateViewport containerW containerH imageW imageH zoom panX panY in
  x v == - imgLeft / s /\ width v == containerW / s /\
  y v == - imgTop / s /\ height v == containerH / s.
Proof.
  intros Hz s imgLeft imgTop HL HR HT HB. unfold calculateViewport. simpl.
  assert (Hs : 0 < s) by (apply div_pos; lra).
  fold s. fold imgLeft. fold imgTop. clearbody imgLeft imgTop. clearbody s.
  pose proof (div_nonneg (- imgLeft) s Hs ltac:(lra)) as HxL.
  pose proof (div_nonneg (- imgTop) s Hs ltac:(lra)) as HyT.
  pose proof (div_mul_cancel (- imgLeft) s Hs) as ExL.
  pose proof (div_mul_cancel (- imgTop) s Hs) as EyT.
  set (a := - imgLeft / s) in *. set (b := - imgTop / s) in *.
  clearbody a b.
  assert (HwR : containerW / s <= imageW - a)
    by (apply Qle_shift_div_r; [done | lra]).
  assert (HhB : containerH / s <= imageH - b)
    by (apply Qle_shift_div_r; [done | lra]).
  repeat split; split_minmax; lra.
Qed.

(** X2. An image that covers the container on an axis (its left edge at or
    before the container's, its right edge at or after the container's) is
    seen through the container as a window: the viewport starts where the
    container's edge falls on the image and has the container's extent at
    scale. *)
Theorem calculateViewport_window
    (containerW containerH imageW imageH zoom panX panY : Q) :
  0 < zoom ->
  let s := zoom / 100 in
  let imgLeft := (containerW - imageW * s) / 2 + panX in
  let imgTop := (containerH - imageH * s) / 2 + panY in
  imgLeft <= 0 -> containerW <= imgLeft + imageW * s ->
  imgTop <= 0 -> containerH <= imgTop + imageH * s ->
  let v := calculateViewport containerW containerH imageW imageH zoom panX panY in
  x v == - imgLeft / s /\ width v == containerW / s /\
  y v == - imgTop / s /\ height v == containerH / s.
Proof. apply calculateViewport_covering. Qed.

Lemma calculateViewport_window_witness :
  let v := calculateViewport 800 600 4096 4096 100 0 0 in
  x v == - ((800 - 4096 * (100 / 100)) / 2 + 0) / (100 / 100) /\
  width v == 800 / (100 / 100) /\
  y v == - ((600 - 4096 * (100 / 100)) / 2 + 0) / (100 / 100) /\
  height v == 600 / (100 / 100).
Proof.
  apply (calculateViewport_window 800 600 4096 4096 100 0 0);
    qle_compute || reflexivity.
Defined.

(** X3. While the image's left (top) edge stays at or before the container's,
    dragging the image by [d] container pixels moves the viewport by
    [d / scale] image units the other way. *)
Theorem calculateViewport_pan
    (containerW containerH imageW imageH zoom panX panY panX' panY' : Q) :
  0 < zoom ->
  let s := zoom / 100 in
  (containerW - imageW * s) / 2 + panX <= 0 ->
  (containerW - imageW * s) / 2 + panX' <= 0 ->
  (containerH - imageH * s) / 2 + panY <= 0 ->
  (containerH - imageH * s) / 2 + panY' <= 0 ->
  let v := calculateViewport containerW containerH imageW imageH zoom panX panY in
  let v' := calculateViewport containerW containerH imageW imageH zoom panX' panY' in
  x v' - x v == (panX - panX') / s /\ y v' - y v == (panY - panY') / s.
Proof.
  intros Hz s HX HX' HY HY'. unfold calculateViewport. simpl.
  assert (Hs : 0 < s) by (apply div_pos; lra).
  fold s. clearbody s.
  set (cx := (containerW - imageW * s) / 2) in *.
  set (cy := (containerH - imageH * s) / 2) in *. clearbody cx cy.
  pose proof (div_nonneg (- (cx + panX)) s Hs ltac:(lra)).
  pose proof (div_nonneg (- (cx + panX')) s Hs ltac:(lra)).
  pose proof (div_nonneg (- (cy + panY)) s Hs ltac:(lra)).
  pose proof (div_nonneg (- (cy + panY')) s Hs ltac:(lra)).
  assert (EX : - (cx + panX') / s - - (cx + panX) / s == (panX - panX') / s)
    by (field; lra).
  assert (EY : - (cy + panY') / s - - (cy + panY) / s == (panY - panY') / s)
    by (field; lra).
  split.
  - rewrite <- EX. split_minmax; lra.
  - rewrite <- EY. split_minmax; lra.
Qed.

Lemma calculateViewport_pan_witness :
  let v := calculateViewport 800 600 4096 4096 200 0 0 in
  let v' := calculateViewport 800 600 4096 4096 200 (-50) 30 in
  x v' - x v == (0 - -50) / (200 / 100) /\
  y v' - y v == (0 - 30) / (200 / 100).
Proof.
  apply (calculateViewport_pan 800 600 4096 4096 200 0 0 (-50) 30);
    qle_compute || reflexivity.
Defined.

(** X4. For positive sizes and a positive zoom the viewport satisfies all the
    invariants of a viewport exactly when the image has not been panned
    wholly past the container's left or top edge. *)
Theorem calculateViewport_valid_iff
    (containerW containerH imageW imageH zoom panX panY : Q) :
  0 < containerW -> 0 < containerH -> 0 < imageW -> 0 < imageH -> 0 < zoom ->
  let v := calculateViewport containerW containerH imageW imageH zoom panX panY in
  valid_viewport v imageW imageH <->
  - ((containerW + imageW * (zoom / 100)) / 2) <= panX /\
  - ((containerH + imageH * (zoom / 100)) / 2) <= panY.
Proof.
  intros HcW HcH HiW HiH Hz v.
  destruct (calculateViewport_width_nonneg_iff
              containerW containerH imageW imageH zoom panX panY HcW HcH Hz)
    as [Hw Hh].
  destruct (calculateViewport_x_le_image_iff
              containerW containerH imageW imageH zoom panX panY HiW HiH Hz)
    as [Hx Hy].
  assert (Hnz : ~ zoom == 0) by (intros E; rewrite E in Hz; discriminate Hz).
  destruct (calculateViewport_clamped
              containerW containerH imageW imageH zoom panX panY Hnz)
    as (Hx0 & Hy0 & HxW & HyH).
  fold v in Hw, Hh, Hx, Hy, Hx0, Hy0, HxW, HyH.
  assert (Hs : 0 < scale v) by (subst v; simpl; apply div_pos; lra).
  change (scale v) with (zoom / 100) in Hx, Hy.
  unfold valid_viewport. rewrite <- Hx, <- Hy, <- Hw, <- Hh. tauto.
Qed.

Lemma calculateViewport_valid_iff_witness :
  let v := calculateViewport 800 600 4096 4096 100 (-2000) 300 in
  valid_viewport v 4096 4096 <->
  - ((800 + 4096 * (100 / 100)) / 2) <= -2000 /\
  - ((600 + 4096 * (100 / 100)) / 2) <= 300.
Proof. apply calculateViewport_valid_iff; reflexivity. Defined.

(** * Further properties of the region expander *)

Lemma is_integer_inject_Z (z : Z) : is_integer (inject_Z z).
Proof. by exists z. Qed.

Lemma is_integer_Qeq (a b : Q) : a == b -> is_integer a -> is_integer b.
Proof. intros E [z Hz]. exists z. by rewrite <- E. Qed.

Lemma is_integer_minus (a b : Q) : is_integer a -> is_integer b -> is_integer (a - b).
Proof.
  intros [z Hz] [w Hw]. exists (z - w)%Z.
  rewrite Hz, Hw. unfold Z.sub. rewrite inject_Z_plus, inject_Z_opp. reflexivity.
Qed.

Lemma is_integer_max (a b : Q) : is_integer a -> is_integer b -> is_integer (Qmax a b).
Proof.
  intros Ha Hb. destruct (NumFacts.max_cases a b) as [[_ E] | [_ E]];
    symmetry in E; eauto using is_integer_Qeq.
Qed.

Lemma is_integer_min (a b : Q) : is_integer a -> is_integer b -> is_integer (Qmin a b).
Proof.
  intros Ha Hb. destruct (NumFacts.min_cases a b) as [[_ E] | [_ E]];
    symmetry in E; eauto using is_integer_Qeq.
Qed.

Lemma floor_integer (a : Q) : is_integer a -> Num.floor a == a.
Proof.
  intros [z Hz]. unfold Num.floor.
  rewrite (Qfloor_comp a (inject_Z z) Hz), Qfloor_Z. by symmetry.
Qed.

Lemma ceil_integer (a : Q) : is_integer a -> Num.ceil a == a.
Proof.
  intros [z Hz]. unfold Num.ceil.
  rewrite (Qceiling_comp a (inject_Z z) Hz), Qceiling_Z. by symmetry.
Qed.

(** X5. On an image of integer size every coordinate of the region is an
    integer, whatever the viewport and the buffer ratio are. *)
Theorem calculateRenderRegion_integers
    (v : ViewportInfo) (imageW imageH ratio : Q) :
  is_integer imageW -> is_integer imageH ->
  let r := calculateRenderRegion v imageW imageH ratio in
  is_integer (sourceX r) /\ is_integer (sourceY r) /\
  is_integer (sourceWidth r) /\ is_integer (sourceHeight r) /\
  is_integer (destX r) /\ is_integer (destY r) /\
  is_integer (destWidth r) /\ is_integer (destHeight r).
Proof.
  intros HW HH. unfold calculateRenderRegion. simpl.
  assert (H0 : is_integer 0) by apply (is_integer_inject_Z 0).
  assert (HX : is_integer (Qmax 0 (Num.floor (x v - width v * ratio))))
    by (apply is_integer_max; [done | apply is_integer_inject_Z]).
  assert (HY : is_integer (Qmax 0 (Num.floor (y v - height v * ratio))))
    by (apply is_integer_max; [done | apply is_integer_inject_Z]).
  assert (HSW : is_integer
    (Qmin (imageW - Qmax 0 (Num.floor (x v - width v * ratio)))
          (Num.ceil (width v + width v * ratio * 2)))).
  { apply is_integer_min; [by apply is_integer_minus | apply is_integer_inject_Z]. }
  assert (HSH : is_integer
    (Qmin (imageH - Qmax 0 (Num.floor (y v - height v * ratio)))
          (Num.ceil (height v + height v * ratio * 2)))).
  { apply is_integer_min; [by apply is_integer_minus | apply is_integer_inject_Z]. }
  tauto.
Qed.

Lemma calculateRenderRegion_integers_witness :
  let v := {| x := 3 # 2; y := 7 # 3; width := 10 # 3; height := 5; scale := 3 |} in
  let r := calculateRenderRegion v 64 48 default_bufferRatio in
  is_integer (sourceX r) /\ is_integer (sourceY r) /\
  is_integer (sourceWidth r) /\ is_integer (sourceHeight r) /\
  is_integer (destX r) /\ is_integer (destY r) /\
  is_integer (destWidth r) /\ is_integer (destHeight r).
Proof.
  apply calculateRenderRegion_integers;
    [exact (is_integer_inject_Z 64) | exact (is_integer_inject_Z 48)].
Defined.

(** X6. For a valid viewport and a non-negative buffer ratio the source
    rectangle starts at or before the viewport and has non-negative
    extents. *)
Theorem calculateRenderRegion_nonneg
    (v : ViewportInfo) (imageW imageH ratio : Q) :
  valid_viewport v imageW imageH -> 0 <= ratio ->
  let r := calculateRenderRegion v imageW imageH ratio in
  sourceX r <= x v /\ sourceY r <= y v /\
  0 <= sourceWidth r /\ 0 <= sourceHeight r.
Proof.
  intros (Hx & Hy & Hw & Hh & HxW & HyH & Hs) Hr.
  unfold calculateRenderRegion. simpl.
  pose proof (Qmult_le_0_compat _ _ Hw Hr) as Hbx.
  pose proof (Qmult_le_0_compat _ _ Hh Hr) as Hby.
  set (bx := width v * ratio) in *. set (by_ := height v * ratio) in *.
  clearbody bx by_.
  floor_ceil_facts. repeat split; split_minmax; lra.
Qed.

Lemma calculateRenderRegion_nonneg_witness :
  let v := {| x := 9 # 8; y := 0; width := 1; height := 1; scale := 800 |} in
  let r := calculateRenderRegion v 16 16 default_bufferRatio in
  sourceX r <= x v /\ sourceY r <= y v /\
  0 <= sourceWidth r /\ 0 <= sourceHeight r.
Proof.
  apply calculateRenderRegion_nonneg.
  - unfold valid_viewport. simpl. repeat split; qle_compute.
  - qle_compute.
Defined.

(** X7. Rounding over-renders by less than a pixel: the source rectangle starts
    less than one pixel before the buffered origin, never after it (unless
    clamped to [0]), and is less than one pixel wider and higher than the
    buffered extent. *)
Theorem calculateRenderRegion_rounding
    (v : ViewportInfo) (imageW imageH ratio : Q) :
  let r := calculateRenderRegion v imageW imageH ratio in
  let bufferX := width v * ratio in
  let bufferY := height v * ratio in
  (x v - bufferX - 1 < sourceX r /\ sourceX r <= Qmax 0 (x v - bufferX)) /\
  (y v - bufferY - 1 < sourceY r /\ sourceY r <= Qmax 0 (y v - bufferY)) /\
  sourceWidth r < width v + 2 * bufferX + 1 /\
  sourceHeight r < height v + 2 * bufferY + 1.
Proof.
  unfold calculateRenderRegion. simpl.
  set (bx := width v * ratio) in *. set (by_ := height v * ratio) in *.
  clearbody bx by_.
  floor_ceil_facts. repeat split; split_minmax; lra.
Qed.

(** X8. Without a buffer, a valid viewport on whole pixels is its own source
    rectangle. *)
Theorem calculateRenderRegion_exact
    (v : ViewportInfo) (imageW imageH : Q) :
  valid_viewport v imageW imageH ->
  is_integer (x v) -> is_integer (y v) ->
  is_integer (width v) -> is_integer (height v) ->
  source_rect_is (calculateRenderRegion v imageW imageH 0)
    (x v) (y v) (width v) (height v).
Proof.
  intros (Hx & Hy & Hw & Hh & HxW & HyH & Hs) Ix Iy Iw Ih.
  unfold source_rect_is, calculateRenderRegion. simpl.
  assert (Ex : Num.floor (x v - width v * 0) == x v).
  { rewrite floor_integer; [ring |]. apply (is_integer_Qeq (x v)); [ring | done]. }
  assert (Ey : Num.floor (y v - height v * 0) == y v).
  { rewrite floor_integer; [ring |]. apply (is_integer_Qeq (y v)); [ring | done]. }
  assert (Ew : Num.ceil (width v + width v * 0 * 2) == width v).
  { rewrite ceil_integer; [ring |]. apply (is_integer_Qeq (width v)); [ring | done]. }
  assert (Eh : Num.ceil (height v + height v * 0 * 2) == height v).
  { rewrite ceil_integer; [ring |]. apply (is_integer_Qeq (height v)); [ring | done]. }
  set (fx := Num.floor (x v - width v * 0)) in *.
  set (fy := Num.floor (y v - height v * 0)) in *.
  set (cw := Num.ceil (width v + width v * 0 * 2)) in *.
  set (ch := Num.ceil (height v + height v * 0 * 2)) in *.
  clearbody fx fy cw ch.
  repeat split; split_minmax; lra.
Qed.

Lemma calculateRenderRegion_exact_witness :
  let v := {| x := 10; y := 20; width := 30; height := 40; scale := 2 |} in
  source_rect_is (calculateRenderRegion v 64 64 0) 10 20 30 40.
Proof.
  apply (calculateRenderRegion_exact
           {| x := 10; y := 20; width := 30; height := 40; scale := 2 |} 64 64).
  - unfold valid_viewport. simpl. repeat split; qle_compute.
  - exact (is_integer_inject_Z 10).
  - exact (is_integer_inject_Z 20).
  - exact (is_integer_inject_Z 30).
  - exact (is_integer_inject_Z 40).
Defined.

(** * Further properties of the operation culler *)

Lemma isPointInViewport_margin_mono
    (px py : Q) (v : ViewportInfo) (margin margin' : Q) :
  margin <= margin' ->
  isPointInViewport px py v margin = true ->
  isPointInViewport px py v margin' = true.
Proof.
  intros Hm. rewrite !isPointInViewport_iff.
  intros [[? ?] [? ?]]. repeat split; lra.
Qed.

(** X9. A larger tool size never culls more: what is kept for a tool size is
    kept, in the same order, for every larger one. *)
Theorem filterOpsInViewport_toolSize_mono {T : Type} `{HasPoint T}
    (ops : list T) (v : ViewportInfo) (toolSize toolSize' : Q) :
  toolSize <= toolSize' ->
  sublist (filterOpsInViewport ops v toolSize)
          (filterOpsInViewport ops v toolSize').
Proof.
  intros Ht. unfold filterOpsInViewport.
  induction ops as [| op ops IH]; simpl; [constructor |].
  destruct (isPointInViewport (op_x op) (op_y op) v (toolSize * 2)) eqn:E.
  - rewrite (isPointInViewport_margin_mono _ _ v (toolSize * 2) (toolSize' * 2))
      by (done || lra).
    by constructor.
  - destruct (isPointInViewport (op_x op) (op_y op) v (toolSize' * 2));
      [by constructor | done].
Qed.

Lemma filterOpsInViewport_toolSize_mono_witness :
  let v := {| x := 10; y := 10; width := 20; height := 10; scale := 1 |} in
  let ops := [(5, 15); (31, 15); (30, 20); (6, 8); (0, 0); (34, 24); (35, 24)] in
  sublist (@filterOpsInViewport _ point_ops ops v 0)
          (@filterOpsInViewport _ point_ops ops v 2).
Proof. apply filterOpsInViewport_toolSize_mono. discriminate. Defined.

(** X10. Culling composes: the culled concatenation of two logs is the
    concatenation of the culled logs, culling a culled log changes nothing,
    and the result is never longer than the log. *)
Theorem filterOpsInViewport_compose {T : Type} `{HasPoint T}
    (ops ops' : list T) (v : ViewportInfo) (toolSize : Q) :
  filterOpsInViewport (ops ++ ops') v toolSize =
    filterOpsInViewport ops v toolSize ++ filterOpsInViewport ops' v toolSize /\
  filterOpsInViewport (filterOpsInViewport ops v toolSize) v toolSize =
    filterOpsInViewport ops v toolSize /\
  (length (filterOpsInViewport ops v toolSize) <= length ops)%nat.
Proof.
  unfold filterOpsInViewport. split; [apply List.filter_app | split].
  - induction ops as [| op ops IH]; simpl; [done |].
    destruct (isPointInViewport (op_x op) (op_y op) v (toolSize * 2)) eqn:E;
      simpl; [rewrite E; by f_equal | done].
  - apply List.filter_length_le.
Qed.

(** X11. The box of the test is empty exactly when the viewport, grown by the
    margin on both sides, has a negative width or height; then every log is
    culled to nothing. *)
Theorem filterOpsInViewport_empty_box {T : Type} `{HasPoint T}
    (v : ViewportInfo) (toolSize : Q) :
  ((exists px py, isPointInViewport px py v (toolSize * 2) = true) <->
   0 <= width v + 4 * toolSize /\ 0 <= height v + 4 * toolSize) /\
  (width v + 4 * toolSize < 0 \/ height v + 4 * toolSize < 0 ->
   forall ops : list T, filterOpsInViewport ops v toolSize = []).
Proof.
  split; [split |].
  - intros (px & py & Hin). apply isPointInViewport_iff in Hin as [[? ?] [? ?]].
    split; lra.
  - intros [Hw Hh]. exists (x v - toolSize * 2), (y v - toolSize * 2).
    apply isPointInViewport_iff. repeat split; lra.
  - intros Hneg ops. unfold filterOpsInViewport.
    induction ops as [| op ops IH]; simpl; [done |].
    destruct (isPointInViewport (op_x op) (op_y op) v (toolSize * 2)) eqn:E;
      [| done].
    apply isPointInViewport_iff in E as [[? ?] [? ?]]. lra.
Qed.

Lemma filterOpsInViewport_empty_box_witness :
  let v := {| x := 11648; y := 1748; width := -7552; height := 600; scale := 1 |} in
  @filterOpsInViewport _ point_ops [(11648, 1800); (5000, 2000); (0, 0)] v 8 = [].
Proof.
  apply (@filterOpsInViewport_empty_box _ point_ops).
  left. reflexivity.
Defined.

(** * Further properties of the redraw scheduler *)

Module ViewportRendererProperties.
Import ViewportRenderer ViewportRendererSpec ViewportRendererAutomaton.
Import ViewportRendererFacts.

Lemma Qabs_diff_refl (a : Q) : Qabs (a - a) == 0.
Proof. apply Qabs_diff_eq. reflexivity. Qed.

(** X12. Asking again with the viewport just stored asks for no redraw, unless
    the dead zone [width * threshold] or [height * threshold] is negative. *)
Theorem shouldRedraw_unchanged
    (this : t) (v : ViewportInfo) (imageW imageH threshold : Q) :
  shouldRedraw (updateViewport this v imageW imageH) v threshold = false <->
  0 <= width v * threshold /\ 0 <= height v * threshold.
Proof.
  rewrite shouldRedraw_after_update, !Qabs_diff_refl.
  split; [tauto |]. intros [? ?]. repeat split; try done.
Qed.

(** X13. A change of the zoom by more than one percentage point asks for a
    redraw, whatever else changed and whatever the threshold is. *)
Theorem shouldRedraw_zoom_change
    (this : t) (containerW containerH imageW imageH : Q)
    (zoom panX panY zoom' panX' panY' threshold : Q) :
  0 < zoom -> 0 < zoom' -> 1 < Qabs (zoom' - zoom) ->
  let v := calculateViewport containerW containerH imageW imageH zoom panX panY in
  let v' :=
    calculateViewport containerW containerH imageW imageH zoom' panX' panY' in
  shouldRedraw (updateViewport this v imageW imageH) v' threshold = true.
Proof.
  intros _ _ Hd v v'. apply not_false_iff_true.
  rewrite shouldRedraw_after_update. intros (_ & _ & _ & _ & Hs).
  change (scale v') with (zoom' / 100) in Hs.
  change (scale v) with (zoom / 100) in Hs.
  assert (E : zoom' / 100 - zoom / 100 == (zoom' - zoom) * (1 # 100))
    by (field; lra).
  rewrite E, Qabs_Qmult in Hs.
  change (Qabs (1 # 100)) with (1 # 100) in Hs.
  set (d := Qabs (zoom' - zoom)) in *. clearbody d. lra.
Qed.

Lemma shouldRedraw_zoom_change_witness :
  let v := calculateViewport 800 600 4096 4096 100 0 0 in
  let v' := calculateViewport 800 600 4096 4096 102 0 0 in
  shouldRedraw (updateViewport new v 4096 4096) v' (1 # 10) = true.
Proof.
  apply (shouldRedraw_zoom_change new 800 600 4096 4096 100 0 0 102 0 0 (1 # 10));
    reflexivity.
Defined.






Lemma state_of_exec (this : t) (c : command) :
  state_of (exec this c) = next (state_of this) c.
Proof.
  destruct c; simpl; try reflexivity.
  unfold state_of, markDirty. simpl.
  by destruct (lastViewport this), (needsFullRedraw this).
Qed.

(** X15. The scheduler is the automaton on [Uninitialized], [Clean], [Dirty]:
    [updateViewport] leads to [Clean], [reset] to [Uninitialized],
    [markDirty] to [Dirty] except that it leaves [Uninitialized] alone; and
    outside [Clean] every redraw question is answered with yes. *)
Theorem scheduler_automaton
    (cs : list command) (this : t) (v : ViewportInfo) (threshold : Q) :
  state_of (run cs this) = run_states cs (state_of this) /\
  (run_states cs (state_of this) <> Clean ->
   shouldRedraw (run cs this) v threshold = true).
Proof.
  assert (Hsim : state_of (run cs this) = run_states cs (state_of this)).
  { revert this. induction cs as [| c cs IH]; intros this; [done |].
    simpl. by rewrite IH, state_of_exec. }
  split; [done |]. rewrite <- Hsim. apply shouldRedraw_not_Clean.
Qed.

Lemma scheduler_automaton_witness :
  let v := {| x := 0; y := 0; width := 800; height := 600; scale := 1 |} in
  let cs := [UpdateViewport v 4096 4096; MarkDirty] in
  state_of (run cs new) = Dirty /\ shouldRedraw (run cs new) v (1 # 10) = true.
Proof.
  set (v := {| x := 0; y := 0; width := 800; height := 600; scale := 1 |}).
  destruct (scheduler_automaton [UpdateViewport v 4096 4096; MarkDirty]
              new v (1 # 10)) as [Hs Hr].
  split; [exact Hs | apply Hr; discriminate].
Defined.

End ViewportRendererProperties.

(** * Further properties of the bounded cache *)

Module ImageCacheManagerProperties.
Import ImageCacheManager ImageCacheManagerSpec ImageCacheManagerFacts.

Local Open Scope Z_scope.

Lemma inv_empty (m : Z) : 0 <= m -> inv (empty m).
Proof.
  intros Hm. split; [apply wf_empty | by intros ?%elem_of_nil |].
  unfold getSize. simpl. by rewrite map_size_empty.
Qed.

(** [set] touches no pair but the one it stores and the one it evicts,
    which is the head of the access order. *)
Lemma lookup_set_other (key value : string) (this : t) (k : string) :
  k <> key ->
  getSize this < maxSize this \/ is_Some (cache this !! key) \/
    head (accessOrder this) <> Some k ->
  cache (set key value this) !! k = cache this !! k.
Proof.
  intros Hne Hcase. unfold set.
  destruct ((getSize this >=? maxSize this) && negb (has key this)) eqn:E.
  - apply andb_true_iff in E as [Hge Hnew].
    apply negb_true_iff, has_false in Hnew.
    destruct Hcase as [Hlt | [[v Hv] | Hhead]]; [lia | congruence |].
    destruct (accessOrder this) as [| oldest rest]; simpl.
    + by rewrite lookup_insert_ne.
    + rewrite lookup_insert_ne by done.
      destruct (negb (String.eqb oldest "")); [| done].
      apply lookup_delete_ne. intros ->. by apply Hhead.
  - simpl. by rewrite lookup_insert_ne.
Qed.

(** X16. What was stored is what is read: right after [set key value],
    [get key] returns [value] and [has key] is true, in every state. *)
Theorem set_get_round_trip (key value : string) (this : t) :
  fst (get key (set key value this)) = Some value /\
  has key (set key value this) = true.
Proof.
  split.
  - rewrite get_value. apply lookup_set_same.
  - apply has_true. rewrite lookup_set_same. by eexists.
Qed.

(** X17. [get] never changes what is stored: every key has the value it had, and
    the size and the capacity are the same; on a key that is not stored it
    returns [undefined] and leaves the whole cache as it is. *)
Theorem get_keeps_contents (key : string) (this : t) :
  let that := snd (get key this) in
  (forall k, cache that !! k = cache this !! k) /\
  (forall k, has k that = has k this) /\
  getSize that = getSize this /\ maxSize that = maxSize this /\
  (has key this = false -> get key this = (None, this)).
Proof.
  cbn zeta. unfold has, getSize. rewrite cache_get, maxSize_get.
  repeat split. intros Hmiss%has_false. by apply get_miss.
Qed.

Lemma get_keeps_contents_witness :
  get "a" (run [DoSet "b" "2"] new) = (None, run [DoSet "b" "2"] new).
Proof.
  apply (get_keeps_contents "a" (run [DoSet "b" "2"] new)).
  vm_compute. reflexivity.
Defined.

Lemma last_accessOrder_set (key value : string) (this : t) :
  last (accessOrder (set key value this)) = Some key.
Proof. unfold set. rewrite accessOrder_updateAccessOrder. apply last_snoc. Qed.

Lemma last_accessOrder_get (key found : string) (this : t) :
  fst (get key this) = Some found -> found <> "" ->
  last (accessOrder (snd (get key this))) = Some key.
Proof.
  intros Hfound Hne. rewrite get_value in Hfound.
  rewrite (get_hit key found) by done. apply last_snoc.
Qed.

(** X18. [set] makes its key the most recently used one, in every state; so does
    a [get] that finds a non-empty value. *)
Theorem touched_key_is_most_recent (key value : string) (this : t) :
  last (accessOrder (set key value this)) = Some key /\
  (forall found, fst (get key this) = Some found -> found <> "" ->
     last (accessOrder (snd (get key this))) = Some key).
Proof.
  split; [apply last_accessOrder_set |].
  intros found. apply last_accessOrder_get.
Qed.

Lemma touched_key_is_most_recent_witness :
  let this := run [DoSet "a" "1"; DoSet "b" "2"] new in
  last (accessOrder (set "a" "3" this)) = Some "a" /\
  last (accessOrder (snd (get "a" this))) = Some "a".
Proof.
  set (this := run [DoSet "a" "1"; DoSet "b" "2"] new).
  destruct (touched_key_is_most_recent "a" "3" this) as [Hset Hget].
  split; [exact Hset |].
  apply (Hget "1"); [vm_compute; reflexivity | discriminate].
Defined.

(** X19. At capacity, storing under a new key evicts the head of the access
    order, the least recently used key, and nothing else: the head is gone,
    every other pair is as before, the new key is stored and is the most
    recent one, and the size is unchanged. *)
Theorem set_evicts_least_recently_used
    (key value oldest : string) (rest : list string) (this : t) :
  inv this -> has key this = false -> getSize this = maxSize this ->
  accessOrder this = oldest :: rest ->
  let that := set key value this in
  has oldest that = false /\
  accessOrder that = rest ++ [key] /\
  getSize that = getSize this /\
  cache that !! key = Some value /\
  forall k, k <> oldest -> k <> key -> cache that !! k = cache this !! k.
Proof.
  intros [Hwf Hkeys Hsize] Hnew%has_false Hfull Hord. cbn zeta.
  pose proof Hwf as [Hnd Hl]. rewrite Hord in Hkeys, Hnd.
  apply not_elem_of_cons in Hkeys as [Hne _].
  assert (Hko : key ∉ oldest :: rest).
  { rewrite <- Hord. intros Hin%Hl. rewrite Hnew in Hin. by destruct Hin. }
  apply not_elem_of_cons in Hko as [Hkey Hkr].
  assert (Ho : is_Some (cache this !! oldest)) by (apply Hl; rewrite Hord; by left).
  rewrite (set_full key value oldest rest) by (done || lia).
  unfold has, getSize. simpl. repeat split.
  - apply bool_decide_eq_false. rewrite lookup_insert_ne by done.
    rewrite lookup_delete_eq. by intros [? ?].
  - by rewrite remove_first_notin.
  - rewrite map_size_insert_None by (apply lookup_delete_None; by right).
    rewrite map_size_delete_Some by done.
    apply map_size_ne_0_lookup_2 in Ho. lia.
  - apply lookup_insert_eq.
  - intros k Hk1 Hk2. rewrite lookup_insert_ne by done.
    by rewrite lookup_delete_ne.
Qed.

Lemma set_evicts_least_recently_used_witness :
  let this := run [DoSet "a" "1"; DoSet "b" "2"; DoGet "a"] (empty 2) in
  let that := set "c" "3" this in
  has "b" that = false /\
  accessOrder that = ["a"] ++ ["c"] /\
  getSize that = getSize this /\
  cache that !! "c" = Some "3" /\
  forall k, k <> "b" -> k <> "c" -> cache that !! k = cache this !! k.
Proof.
  apply set_evicts_least_recently_used.
  - apply inv_run; [done | repeat constructor | by apply inv_empty].
  - vm_compute. reflexivity.
  - vm_compute. reflexivity.
  - vm_compute. reflexivity.
Defined.

(** X20. Below capacity, or on a key that is already stored, [set] evicts
    nothing: every other pair is as before, and the size grows by one for a
    new key and not at all for a stored one. *)
Theorem set_without_eviction (key value : string) (this : t) :
  getSize this < maxSize this \/ has key this = true ->
  let that := set key value this in
  (forall k, k <> key -> cache that !! k = cache this !! k) /\
  getSize that = (if has key this then getSize this else getSize this + 1).
Proof.
  intros Hcase. cbn zeta. split.
  - intros k Hk. apply lookup_set_other; [done |].
    destruct Hcase as [? | ?%has_true]; auto.
  - assert (Heq : set key value this =
      {| cache := <[key := value]> (cache this);
         maxSize := maxSize this;
         accessOrder := remove_first key (accessOrder this) ++ [key] |}).
    { destruct (has key this) eqn:E.
      - apply set_present. by apply has_true.
      - apply set_room. by destruct Hcase. }
    rewrite Heq. unfold getSize. simpl. rewrite map_size_insert.
    destruct (has key this) eqn:E.
    + apply has_true in E as [v ->]. done.
    + apply has_false in E as ->. simpl. lia.
Qed.

Lemma set_without_eviction_witness :
  let this := run [DoSet "a" "1"; DoSet "b" "2"] (empty 2) in
  let that := set "a" "9" this in
  (forall k, k <> "a" -> cache that !! k = cache this !! k) /\
  getSize that = (if has "a" this then getSize this else getSize this + 1).
Proof.
  apply set_without_eviction. right. vm_compute. reflexivity.
Defined.

(** [last l] is not the head of a duplicate-free [l] of two or more. *)
Lemma last_not_head (o k : string) (rest : list string) :
  NoDup (o :: rest) -> rest <> [] -> last (o :: rest) = Some k -> o <> k.
Proof.
  intros [Ho _]%NoDup_cons Hrest Hlast ->. apply Ho.
  destruct rest as [| r rest]; [done |].
  change (last (r :: rest) = Some k) in Hlast.
  by apply last_Some_elem_of.
Qed.

(** With room for two keys or more, the most recently used key is never
    the one evicted by storing under another key. *)
Lemma most_recent_survives (key value k : string) (this : t) :
  inv this -> 2 <= maxSize this ->
  last (accessOrder this) = Some k -> k <> key ->
  cache (set key value this) !! k = cache this !! k.
Proof.
  intros [Hwf Hkeys Hsize] Hmax Hlast Hne.
  apply lookup_set_other; [done |].
  destruct (decide (getSize this < maxSize this)) as [? | Hfull]; [by left |].
  right. right.
  pose proof (wf_length this Hwf) as Hlen. destruct Hwf as [Hnd _].
  destruct (accessOrder this) as [| o rest] eqn:Hord; [done |].
  simpl. intros [= ->].
  eapply (last_not_head k k rest); [done | | done | done].
  intros ->. simpl in Hlen. lia.
Qed.

(** X21. A key that has just been stored survives the next [set] of another
    key, if the capacity is two or more and no empty key is involved. *)
Theorem set_survives_next_set (k1 v1 k2 v2 : string) (this : t) :
  inv this -> 2 <= maxSize this -> k1 <> "" -> k1 <> k2 ->
  fst (get k1 (set k2 v2 (set k1 v1 this))) = Some v1.
Proof.
  intros Hinv Hmax Hk1 Hne.
  rewrite get_value, most_recent_survives.
  - apply lookup_set_same.
  - apply inv_set; [lia | done | done].
  - by rewrite maxSize_set.
  - apply last_accessOrder_set.
  - done.
Qed.

Lemma set_survives_next_set_witness :
  let this := run [DoSet "a" "1"; DoSet "b" "2"] (empty 2) in
  fst (get "c" (set "d" "4" (set "c" "3" this))) = Some "3".
Proof.
  apply set_survives_next_set.
  - apply inv_run; [done | repeat constructor | by apply inv_empty].
  - done.
  - discriminate.
  - discriminate.
Defined.

(** X22. A key that has just been read with a non-empty value survives the next
    [set] of another key, if the capacity is two or more: reading protects
    from eviction. *)
Theorem get_survives_next_set (k1 v1 k2 v2 : string) (this : t) :
  inv this -> 2 <= maxSize this ->
  fst (get k1 this) = Some v1 -> v1 <> "" -> k1 <> k2 ->
  has k1 (set k2 v2 (snd (get k1 this))) = true.
Proof.
  intros Hinv Hmax Hget Hv1 Hne.
  apply has_true. rewrite most_recent_survives.
  - rewrite cache_get. rewrite get_value in Hget. rewrite Hget. by eexists.
  - by apply inv_get.
  - by rewrite maxSize_get.
  - by apply (last_accessOrder_get k1 v1).
  - done.
Qed.

Lemma get_survives_next_set_witness :
  let this := run [DoSet "a" "1"; DoSet "b" "2"] (empty 2) in
  has "a" (set "c" "3" (snd (get "a" this))) = true.
Proof.
  apply (get_survives_next_set "a" "1" "c" "3").
  - apply inv_run; [done | repeat constructor | by apply inv_empty].
  - done.
  - vm_compute. reflexivity.
  - discriminate.
  - discriminate.
Defined.

(** X23. On the cache as it is constructed, for every sequence of calls that
    never stores under the empty string: the size never exceeds the
    capacity of 10000, the access order lists every stored key exactly
    once and nothing else, and its length is the size. *)
Theorem cache_invariant (cs : list command) :
  Forall (fun c => stores_empty_key c = false) cs ->
  let this := run cs new in
  maxSize this = 10000 /\ getSize this <= 10000 /\
  NoDup (accessOrder this) /\
  (forall k, k ∈ accessOrder this <-> has k this = true) /\
  Z.of_nat (length (accessOrder this)) = getSize this.
Proof.
  intros Hcs this.
  destruct (inv_run cs new ltac:(done) Hcs inv_new) as [Hwf _ Hsize].
  rewrite maxSize_run in Hsize. fold this in Hwf, Hsize.
  split; [apply maxSize_run | split; [done | split; [by destruct Hwf | split]]].
  - intros k. symmetry. by apply wf_has.
  - by apply wf_length.
Qed.

Lemma cache_invariant_witness :
  let this :=
    run [DoSet "a" "1"; DoGet "a"; DoHas "b"; DoClear; DoSet "b" ""; DoGet "b"]
      new in
  maxSize this = 10000 /\ getSize this <= 10000 /\
  NoDup (accessOrder this) /\
  (forall k, k ∈ accessOrder this <-> has k this = true) /\
  Z.of_nat (length (accessOrder this)) = getSize this.
Proof. apply cache_invariant. repeat constructor. Defined.

(** X24. [clear] repairs the cache: from any state, also one that holds more
    keys than the capacity, the cache is empty after [clear] and stays
    within capacity and consistent under every sequence of calls that does
    not store under the empty string. *)
Theorem clear_restores_invariant (cs : list command) (this : t) :
  1 <= maxSize this ->
  Forall (fun c => stores_empty_key c = false) cs ->
  (getSize (clear this) = 0 /\ forall k, has k (clear this) = false) /\
  let that := run cs (clear this) in
  getSize that <= maxSize this /\
  NoDup (accessOrder that) /\
  (forall k, k ∈ accessOrder that <-> has k that = true).
Proof.
  intros Hmax Hcs. split.
  - unfold getSize, has. simpl. rewrite map_size_empty. split; [done |].
    intros k. apply bool_decide_eq_false. rewrite lookup_empty. by intros [? ?].
  - cbn zeta.
    destruct (inv_run cs (clear this) Hmax Hcs (inv_clear this ltac:(lia)))
      as [Hwf _ Hsize].
    rewrite maxSize_run in Hsize.
    split; [done | split; [by destruct Hwf |]].
    intros k. symmetry. by apply wf_has.
Qed.

Lemma clear_restores_invariant_witness :
  let broken := run [DoSet "" "0"; DoSet "b" "2"; DoSet "c" "3"] (empty 2) in
  let that := run [DoSet "x" "1"; DoSet "y" "2"; DoSet "z" "3"] (clear broken) in
  getSize broken = 3 /\
  (getSize (clear broken) = 0 /\ forall k, has k (clear broken) = false) /\
  getSize that <= 2 /\
  NoDup (accessOrder that) /\
  (forall k, k ∈ accessOrder that <-> has k that = true).
Proof.
  split; [vm_compute; reflexivity |].
  apply (clear_restores_invariant
           [DoSet "x" "1"; DoSet "y" "2"; DoSet "z" "3"]
           (run [DoSet "" "0"; DoSet "b" "2"; DoSet "c" "3"] (empty 2))).
  - vm_compute. discriminate.
  - repeat constructor.
Defined.

(** X25. The round trip at any capacity [m]: storing under [m + 1] distinct
    keys, the first of which is not the empty string, evicts exactly the
    first; reading the second key, whose value is not the empty string, and
    storing under one more key then evicts the third key, if it is not the
    empty string, and keeps the second and all the others. *)
Theorem lru_round_trip_at_capacity
    (m : Z) (k1 v1 : string) (mid : list (string * string))
    (kx vx kb vb k2 v2 k3 : string) (rest : list string) :
  Z.of_nat (length mid) + 1 = m ->
  NoDup ((k1 :: mid.*1 ++ [kx]) ++ [kb]) ->
  mid.*1 ++ [kx] = k2 :: k3 :: rest ->
  (k2, v2) ∈ mid ++ [(kx, vx)] ->
  k1 <> "" -> k3 <> "" -> v2 <> "" ->
  let filled := run (sets ((k1, v1) :: mid ++ [(kx, vx)])) (empty m) in
  let final := set kb vb (snd (get k2 filled)) in
  (has k1 filled = false /\
   forall k, k ∈ mid.*1 ++ [kx] -> has k filled = true) /\
  fst (get k2 filled) = Some v2 /\
  (has k3 final = false /\ has k1 final = false /\
   has k2 final = true /\ has kb final = true /\
   forall k, k ∈ rest -> has k final = true).
Proof.
  intros Hlen Hnd H23 Hv Hk1 Hk3 Hv2. cbn zeta.
  rewrite <- (after_overflow_eq m k1 v1 mid kx vx).
  rewrite <- (after_second_overflow_eq m k1 v1 mid kx vx kb vb k2).
  split; [| split].
  - by apply (overflow_evicts_first m k1 v1 mid kx vx kb k2 v2 k3 rest).
  - rewrite get_value.
    by apply (after_overflow_shape m k1 v1 mid kx vx kb k2 v2 k3 rest).
  - by apply (refreshed_evicts_third m k1 v1 mid kx vx kb vb k2 v2 k3 rest).
Qed.

Lemma lru_round_trip_at_capacity_witness :
  let filled := run (sets [("a", "1"); ("b", "2"); ("c", "3"); ("d", "4")]) (empty 3) in
  let final := set "e" "5" (snd (get "b" filled)) in
  (has "a" filled = false /\
   forall k, k ∈ ["b"; "c"; "d"] -> has k filled = true) /\
  fst (get "b" filled) = Some "2" /\
  (has "c" final = false /\ has "a" final = false /\
   has "b" final = true /\ has "e" final = true /\
   forall k, k ∈ ["d"] -> has k final = true).
Proof.
  apply (lru_round_trip_at_capacity 3 "a" "1" [("b", "2"); ("c", "3")]
           "d" "4" "e" "5" "b" "2" "c" ["d"]).
  - reflexivity.
  - apply NoDup_ListNoDup. vm_compute.
    repeat (constructor; [intros H; repeat (destruct H as [H | H]; [discriminate H |]); exact H |]).
    constructor.
  - reflexivity.
  - apply elem_of_app. left. left.
  - discriminate.
  - discriminate.
  - discriminate.
Defined.

End ImageCacheManagerProperties.

(** * Properties of the diagnostics *)

Lemma floor_nonneg (a : Q) : 0 <= a -> 0 <= inject_Z (Qfloor a).
Proof.
  intros Ha. change 0 with (inject_Z 0). rewrite <- Zle_Qle.
  change 0%Z with (Qfloor 0). by apply Qfloor_resp_le.
Qed.

Lemma floor_le_integer (a : Q) (z : Z) :
  a < inject_Z z + 1 -> inject_Z (Qfloor a) <= inject_Z z.
Proof.
  intros Ha. rewrite <- Zle_Qle. apply Z.lt_succ_r.
  rewrite Zlt_Qlt. unfold Z.succ. rewrite inject_Z_plus.
  apply Qle_lt_trans with a; [apply Qfloor_le | exact Ha].
Qed.

Lemma integer_le_floor (a : Q) (z : Z) :
  inject_Z z <= a -> inject_Z z <= inject_Z (Qfloor a).
Proof.
  intros Ha. rewrite <- Zle_Qle.
  rewrite <- (Qfloor_Z z). by apply Qfloor_resp_le.
Qed.

(** Two decimals are within half a hundredth of the number. *)
Lemma toFixed2_close (a : Q) : Qabs (toFixed2 a - a) <= 1 # 200.
Proof.
  unfold toFixed2.
  destruct (Qle_bool (inject_Z (10 ^ 21)) (Qabs a)).
  { assert (E : a - a == 0) by ring. rewrite E. discriminate. }
  pose proof (Qfloor_le (Qabs a * 100 + (1 # 2))) as Hlo.
  pose proof (NumFacts.floor_gt (Qabs a * 100 + (1 # 2))) as Hhi.
  unfold Num.floor in Hhi.
  set (n := inject_Z (Qfloor (Qabs a * 100 + (1 # 2)))) in *. clearbody n.
  destruct (Qle_bool 0 a) eqn:E.
  - apply Qle_bool_iff in E. rewrite (Qabs_pos a E) in Hlo, Hhi.
    apply Qabs_Qle_condition. unfold Qdiv. change (/ 100) with (1 # 100).
    split; lra.
  - assert (Ha : a <= 0).
    { apply Qlt_le_weak, Qnot_le_lt. intros H%Qle_bool_iff. congruence. }
    rewrite (Qabs_neg a Ha) in Hlo, Hhi.
    apply Qabs_Qle_condition. unfold Qdiv. change (/ 100) with (1 # 100).
    split; lra.
Qed.

Lemma toFixed2_percentage (a : Q) : 0 <= a -> a <= 100 ->
  0 <= toFixed2 a /\ toFixed2 a <= 100.
Proof.
  intros H0 H100. unfold toFixed2.
  destruct (Qle_bool (inject_Z (10 ^ 21)) (Qabs a)); [done |].
  replace (Qle_bool 0 a) with true by (symmetry; by apply Qle_bool_iff).
  rewrite (Qabs_pos a H0).
  pose proof (floor_nonneg (a * 100 + (1 # 2)) ltac:(lra)) as Hlo.
  pose proof (floor_le_integer (a * 100 + (1 # 2)) 10000) as Hhi.
  change (inject_Z 10000) with 10000 in Hhi. specialize (Hhi ltac:(lra)).
  set (n := inject_Z (Qfloor (a * 100 + (1 # 2)))) in *. clearbody n.
  unfold Qdiv. change (/ 100) with (1 # 100). split; lra.
Qed.

Lemma toFixed2_at_least_1 (a : Q) : 1 <= a -> 1 <= toFixed2 a.
Proof.
  intros H1. unfold toFixed2.
  destruct (Qle_bool (inject_Z (10 ^ 21)) (Qabs a)); [done |].
  assert (H0 : 0 <= a) by lra.
  replace (Qle_bool 0 a) with true by (symmetry; by apply Qle_bool_iff).
  rewrite (Qabs_pos a H0).
  pose proof (integer_le_floor (a * 100 + (1 # 2)) 100) as Hlo.
  change (inject_Z 100) with 100 in Hlo. specialize (Hlo ltac:(lra)).
  set (n := inject_Z (Qfloor (a * 100 + (1 # 2)))) in *. clearbody n.
  unfold Qdiv. change (/ 100) with (1 # 100). lra.
Qed.

(** X26. For a viewport of positive area not larger than the full area: no
    negative pixel reduction, a percentage between 0 and 100 that is within
    half a hundredth of the exact one, and a speed-up of at least 1 within
    half a hundredth of the exact ratio. *)
Theorem calculatePerformanceGain_range
    (fullWidth fullHeight viewportWidth viewportHeight : Q) :
  0 < viewportWidth * viewportHeight ->
  viewportWidth * viewportHeight <= fullWidth * fullHeight ->
  let g :=
    calculatePerformanceGain fullWidth fullHeight viewportWidth viewportHeight in
  let fullPixels := fullWidth * fullHeight in
  let viewportPixels := viewportWidth * viewportHeight in
  pixelReduction g == fullPixels - viewportPixels /\
  0 <= pixelReduction g /\
  (0 <= percentageSaved g /\ percentageSaved g <= 100) /\
  Qabs (percentageSaved g - (fullPixels - viewportPixels) / fullPixels * 100)
    <= 1 # 200 /\
  1 <= estimatedSpeedup g /\
  Qabs (estimatedSpeedup g - fullPixels / viewportPixels) <= 1 # 200.
Proof.
  intros Hpos Hle. unfold calculatePerformanceGain.
  cbn [pixelReduction percentageSaved estimatedSpeedup].
  set (fp := fullWidth * fullHeight) in *.
  set (vp := viewportWidth * viewportHeight) in *. clearbody fp vp.
  assert (Hfp : 0 < fp) by lra.
  assert (Hq0 : 0 <= (fp - vp) / fp) by (apply div_nonneg; lra).
  assert (Hq1 : (fp - vp) / fp <= 1) by (apply Qle_shift_div_r; lra).
  assert (Hs1 : 1 <= fp / vp) by (apply Qle_shift_div_l; lra).
  split; [reflexivity | split; [lra |]].
  split; [apply toFixed2_percentage; lra |].
  split; [apply toFixed2_close |].
  split; [by apply toFixed2_at_least_1 | apply toFixed2_close].
Qed.

Lemma calculatePerformanceGain_range_witness :
  let g := calculatePerformanceGain 4096 4096 800 600 in
  pixelReduction g == 4096 * 4096 - 800 * 600 /\
  0 <= pixelReduction g /\
  (0 <= percentageSaved g /\ percentageSaved g <= 100) /\
  Qabs (percentageSaved g - (4096 * 4096 - 800 * 600) / (4096 * 4096) * 100)
    <= 1 # 200 /\
  1 <= estimatedSpeedup g /\
  Qabs (estimatedSpeedup g - 4096 * 4096 / (800 * 600)) <= 1 # 200.
Proof.
  apply (calculatePerformanceGain_range 4096 4096 800 600);
    qle_compute || reflexivity.
Defined.

Example calculatePerformanceGain_example :
  let g := calculatePerformanceGain 4096 4096 800 600 in
  pixelReduction g == 16297216 /\
  percentageSaved g == 9714 # 100 /\
  estimatedSpeedup g == 3495 # 100.
Proof. repeat split; qeq_compute. Qed.

(** * From pan and zoom to the stored region *)

Module RenderPipeline.
Import ViewportRenderer ViewportRendererFacts.

Lemma region_of_whole_image (v : ViewportInfo) (imageW imageH ratio : Q) :
  x v == 0 -> y v == 0 -> width v == imageW -> height v == imageH ->
  0 <= imageW -> 0 <= imageH -> 0 <= ratio ->
  source_rect_is (calculateRenderRegion v imageW imageH ratio) 0 0 imageW imageH.
Proof.
  intros Ex Ey Ew Eh HW HH Hr.
  unfold source_rect_is, calculateRenderRegion. simpl.
  assert (Hw : 0 <= width v) by lra. assert (Hh : 0 <= height v) by lra.
  pose proof (Qmult_le_0_compat _ _ Hw Hr) as Hbx.
  pose proof (Qmult_le_0_compat _ _ Hh Hr) as Hby.
  set (bx := width v * ratio) in *. set (by_ := height v * ratio) in *.
  clearbody bx by_.
  floor_ceil_facts.
  repeat split; split_minmax; lra.
Qed.

(** X27. While the whole image is visible, the region stored by
    [updateViewport] is the whole image. *)
Theorem whole_image_is_rendered
    (this : t) (containerW containerH imageW imageH zoom panX panY : Q) :
  0 < zoom -> 0 <= imageW -> 0 <= imageH ->
  imageW * (zoom / 100) <= containerW ->
  imageH * (zoom / 100) <= containerH ->
  0 <= (containerW - imageW * (zoom / 100)) / 2 + panX ->
  0 <= (containerH - imageH * (zoom / 100)) / 2 + panY ->
  let v := calculateViewport containerW containerH imageW imageH zoom panX panY in
  exists r,
    getRenderRegion (updateViewport this v imageW imageH) = Some r /\
    source_rect_is r 0 0 imageW imageH.
Proof.
  intros Hz HW HH HfitW HfitH HleftW HleftH v.
  destruct (calculateViewport_fits containerW containerH imageW imageH
              zoom panX panY Hz HfitW HfitH HleftW HleftH) as (Ex & Ey & Ew & Eh).
  eexists. split; [reflexivity |].
  by apply region_of_whole_image.
Qed.

Lemma whole_image_is_rendered_witness :
  let v := calculateViewport 800 600 16 16 400 100 (-50) in
  exists r,
    getRenderRegion (updateViewport new v 16 16) = Some r /\
    source_rect_is r 0 0 16 16.
Proof.
  apply (whole_image_is_rendered new 800 600 16 16 400 100 (-50));
    qle_compute || reflexivity.
Defined.

(** X28. While the image covers the container and the container shows five
    image pixels or more on each axis, the region stored by
    [updateViewport] contains everything that is visible, and lies within
    the image. *)
Theorem visible_window_is_rendered
    (this : t) (containerW containerH imageW imageH zoom panX panY : Q) :
  0 < zoom ->
  let s := zoom / 100 in
  let imgLeft := (containerW - imageW * s) / 2 + panX in
  let imgTop := (containerH - imageH * s) / 2 + panY in
  imgLeft <= 0 -> containerW <= imgLeft + imageW * s ->
  imgTop <= 0 -> containerH <= imgTop + imageH * s ->
  5 * s <= containerW -> 5 * s <= containerH ->
  let v := calculateViewport containerW containerH imageW imageH zoom panX panY in
  exists r,
    getRenderRegion (updateViewport this v imageW imageH) = Some r /\
    covers_viewport r v imageW imageH /\ source_within_image r imageW imageH.
Proof.
  intros Hz s imgLeft imgTop HL HR HT HB H5W H5H v.
  destruct (calculateViewport_covering containerW containerH imageW imageH
              zoom panX panY Hz HL HR HT HB) as (Ex & Ew & Ey & Eh).
  assert (Hnz : ~ zoom == 0) by (intros E; rewrite E in Hz; discriminate Hz).
  destruct (calculateViewport_clamped
              containerW containerH imageW imageH zoom panX panY Hnz)
    as (Hx0 & Hy0 & HxW & HyH).
  fold v in Ex, Ew, Ey, Eh, Hx0, Hy0, HxW, HyH. fold s in Ex, Ew, Ey, Eh.
  assert (Hs : 0 < s) by (apply div_pos; lra).
  assert (HcW : 5 <= containerW / s) by (apply Qle_shift_div_l; lra).
  assert (HcH : 5 <= containerH / s) by (apply Qle_shift_div_l; lra).
  eexists. split; [reflexivity | split].
  - apply calculateRenderRegion_covers_ratio.
    + unfold valid_viewport. repeat split; try lra. exact Hs.
    + unfold default_bufferRatio. lra.
    + unfold default_bufferRatio. lra.
  - apply calculateRenderRegion_within_image.
Qed.

Lemma visible_window_is_rendered_witness :
  let v := calculateViewport 800 600 4096 4096 100 0 0 in
  exists r,
    getRenderRegion (updateViewport new v 4096 4096) = Some r /\
    covers_viewport r v 4096 4096 /\ source_within_image r 4096 4096.
Proof.
  apply (visible_window_is_rendered new 800 600 4096 4096 100 0 0);
    qle_compute || reflexivity.
Defined.

(** X29. For a viewport of non-negative width and height, a larger threshold
    never asks for a redraw that a smaller one does not ask for. *)
Theorem shouldRedraw_threshold_mono
    (this : t) (v : ViewportInfo) (threshold threshold' : Q) :
  0 <= width v -> 0 <= height v -> threshold <= threshold' ->
  shouldRedraw this v threshold' = true -> shouldRedraw this v threshold = true.
Proof.
  intros Hw Hh Ht. unfold shouldRedraw.
  destruct (lastViewport this) as [last |]; [| done].
  destruct (needsFullRedraw this); [done |].
  assert (HW : width v * threshold <= width v * threshold').
  { rewrite !(Qmult_comm (width v)). by apply Qmult_le_compat_r. }
  assert (HH : height v * threshold <= height v * threshold').
  { rewrite !(Qmult_comm (height v)). by apply Qmult_le_compat_r. }
  rewrite !orb_true_iff, !NumFacts.gt_true.
  intros [[[[? | ?] | ?] | ?] | ?]; [| | | | by right];
    [do 4 left | do 3 left; right | do 2 left; right | left; right]; lra.
Qed.

Lemma shouldRedraw_threshold_mono_witness :
  let v := {| x := 0; y := 0; width := 800; height := 600; scale := 1 |} in
  let v' := {| x := 300; y := 0; width := 800; height := 600; scale := 1 |} in
  shouldRedraw (updateViewport new v 4096 4096) v' (1 # 10) = true.
Proof.
  apply (shouldRedraw_threshold_mono _ _ (1 # 10) (1 # 4));
    try (qle_compute || discriminate). reflexivity.
Defined.

End RenderPipeline.
